(** * Pond filters: aggregation of tiled features into a country / region / place tree

    A shallow embedding of [build_filters.py].  The script reads every tile of a
    PMTiles archive, decodes it, normalises the properties of each feature of the
    layer [piscinas_merged], folds the feature into three accumulator nodes
    (country, region, place) and finally serialises the tree with sorted keys and
    numbers rounded to six decimals.

    Modelling choices, all taken from the source:
    - a Python [str] is the list of its code points, compared lexicographically;
    - a Python [float] is a binary64 value ([PrimFloat.float]);
    - a Python [int] is an unbounded integer ([Z]);
    - a Python [dict] is an association list in insertion order with pairwise
      distinct keys;
    - an exception that leaves a block is a [Raise] result;
    - the two library calls whose code is not part of the script, [float] applied
      to a [str] and the tile decoder, are variables of the section that holds the
      pipeline. *)

From Stdlib Require Import List ZArith NArith Floats String Ascii Bool Lia.
From Stdlib Require Import Permutation Sorting.Sorted.
Import ListNotations.

Set Warnings "-inexact-float,-register-all".

Open Scope Z_scope.

(** ** Strings *)

Definition codepoint := N.
Definition pystr := list codepoint.

(** An ASCII literal as a Python string. *)
Definition str (s : string) : pystr := map N_of_ascii (list_ascii_of_string s).

Fixpoint str_eqb (a b : pystr) : bool :=
  match a, b with
  | [], [] => true
  | x :: a', y :: b' => (x =? y)%N && str_eqb a' b'
  | _, _ => false
  end.

(** [a < b] on [str]: code point by code point, a proper prefix is smaller. *)
Fixpoint str_ltb (a b : pystr) : bool :=
  match a, b with
  | _, [] => false
  | [], _ :: _ => true
  | x :: a', y :: b' =>
      if (x <? y)%N then true
      else if (x =? y)%N then str_ltb a' b' else false
  end.

Definition str_lt (a b : pystr) : Prop := str_ltb a b = true.

(** [str.isspace] on one code point (the characters [str.strip] removes). *)
Definition isspace (c : codepoint) : bool :=
  ((9 <=? c) && (c <=? 13) || (28 <=? c) && (c <=? 32)
   || (c =? 133) || (c =? 160) || (c =? 5760)
   || (8192 <=? c) && (c <=? 8202)
   || (c =? 8232) || (c =? 8233) || (c =? 8239) || (c =? 8287) || (c =? 12288))%N.

Fixpoint lstrip (s : pystr) : pystr :=
  match s with
  | c :: s' => if isspace c then lstrip s' else s
  | [] => []
  end.

(** [s.strip()] *)
Definition strip (s : pystr) : pystr := rev (lstrip (rev (lstrip s))).

(** ** Dictionaries *)

Definition Dict (V : Type) := list (pystr * V).

(** [d.get(k)] *)
Fixpoint dict_get {V} (d : Dict V) (k : pystr) : option V :=
  match d with
  | [] => None
  | (k', v) :: d' => if str_eqb k' k then Some v else dict_get d' k
  end.

(** [d[k] = v]: an existing key keeps its position, a new key goes last. *)
Fixpoint dict_set {V} (d : Dict V) (k : pystr) (v : V) : Dict V :=
  match d with
  | [] => [(k, v)]
  | (k', v') :: d' =>
      if str_eqb k' k then (k', v) :: d' else (k', v') :: dict_set d' k v
  end.

(** [d.setdefault(k, v)]: the dictionary afterwards and the value returned. *)
Definition dict_setdefault {V} (d : Dict V) (k : pystr) (v : V) : Dict V * V :=
  match dict_get d k with
  | Some x => (d, x)
  | None => (dict_set d k v, v)
  end.

Definition keys {V} (d : Dict V) : list pystr := map fst d.
Definition values {V} (d : Dict V) : list V := map snd d.

(** [sorted(d.items())].  The items are (name, value) pairs; the names of one
    dictionary are pairwise distinct, so the comparison of two pairs is decided
    by the names alone.  The sort is stable. *)
Fixpoint insert_item {V} (x : pystr * V) (l : list (pystr * V)) : list (pystr * V) :=
  match l with
  | [] => [x]
  | y :: l' => if str_ltb (fst y) (fst x) then y :: insert_item x l' else x :: l
  end.

Definition sorted_items {V} (d : Dict V) : list (pystr * V) :=
  fold_right insert_item [] d.

(** The order of the sort on items: [a] is not above [b]. *)
Definition key_le {V} (a b : pystr * V) : Prop := str_ltb (fst b) (fst a) = false.

(** ** Exceptions *)

Inductive exn := AttributeError | TypeError | ValueError | OverflowError.

Inductive Result (A : Type) :=
| Ok (a : A)
| Raise (e : exn).
Arguments Ok {A} a.
Arguments Raise {A} e.

Definition bind {A B} (r : Result A) (k : A -> Result B) : Result B :=
  match r with
  | Ok a => k a
  | Raise e => Raise e
  end.

Notation "x <- r ;; k" := (bind r (fun x => k))
  (at level 61, r at next level, right associativity).

(** ** Floating point helpers *)

(** [min(a, b)] and [max(a, b)] of two floats: the first argument is kept unless
    the second is strictly smaller (greater). *)
Definition py_min (a b : float) : float := if (b <? a)%float then b else a.
Definition py_max (a b : float) : float := if (a <? b)%float then b else a.

(** The binary64 value nearest to an integer, ties to even (infinite beyond the
    range). *)
Definition int_to_SF (n : Z) : spec_float := binary_normalize prec emax n 0 false.

(** [float(n)] for an [int]: [OverflowError] when the integer is too large. *)
Definition float_of_int (n : Z) : Result float :=
  match int_to_SF n with
  | S754_infinity _ => Raise OverflowError
  | sf => Ok (SF2Prim sf)
  end.

(** [x / n] for a float [x] and an int [n]: the int is converted first.  The
    only divisor in the script is [has_center], a count of features, which is
    far below the range where the conversion overflows. *)
Definition div_int (x : float) (n : Z) : float := (x / SF2Prim (int_to_SF n))%float.

(** The integer nearest to [m * 2^e * 10^6], ties to even. *)
Definition scaled_half_even (m : positive) (e : Z) : Z :=
  let num := Zpos m * 1000000 in
  if 0 <=? e then num * 2 ^ e
  else
    let den := 2 ^ (- e) in
    let q := num / den in
    let r := num mod den in
    match 2 * r ?= den with
    | Lt => q
    | Gt => q + 1
    | Eq => if Z.even q then q else q + 1
    end.

(** [round(x, 6)]: the exact value of [x] is rounded half to even to six
    decimals, and the decimal result is converted back to the nearest float;
    zeros, infinities and NaN round to themselves. *)
Definition round6 (x : float) : float :=
  match Prim2SF x with
  | S754_finite s m e =>
      match scaled_half_even m e with
      | Zpos p => SF2Prim (SFdiv prec emax (S754_finite s p 0) (S754_finite false 1000000 0))
      | _ => SF2Prim (S754_zero s)
      end
  | _ => x
  end.

(** [x == x]: true of every float but NaN. *)
Definition not_nan (x : float) : bool := (x =? x)%float.

(** [a <= b] as a proposition. *)
Definition fle (a b : float) : Prop := (a <=? b)%float = true.

(** The values [v] with [0.0 <= v], on the specification side: zeros of either
    sign, positive finite numbers and the positive infinity. *)
Definition sf_nonneg (s : spec_float) : bool :=
  match s with
  | S754_zero _ => true
  | S754_infinity sg => negb sg
  | S754_nan => false
  | S754_finite sg _ _ => negb sg
  end.

(** Left-to-right floating point sum from [0.0], as a running [+=] computes it. *)
Definition fsum (l : list float) : float := fold_left PrimFloat.add l 0%float.

(** ** Property values *)

(** The values a decoded vector tile gives a property: text, integer, float or
    boolean.  A missing key reads as [None]. *)
Inductive PyVal :=
| VStr (s : pystr)
| VInt (n : Z)
| VFloat (f : float)
| VBool (b : bool).

Definition Props := Dict PyVal.

Definition truthy (v : PyVal) : bool :=
  match v with
  | VStr s => match s with [] => false | _ => true end
  | VInt n => negb (n =? 0)
  | VFloat f => negb (f =? 0)%float
  | VBool b => b
  end.

Definition truthy_opt (v : option PyVal) : bool :=
  match v with
  | Some v => truthy v
  | None => false
  end.

(** [a or b] *)
Definition py_or (a b : option PyVal) : option PyVal := if truthy_opt a then a else b.

(** [v.strip()]: only a [str] has the method. *)
Definition py_strip (v : option PyVal) : Result pystr :=
  match v with
  | Some (VStr s) => Ok (strip s)
  | _ => Raise AttributeError
  end.

(** ** Accumulator nodes *)

Inductive Level := Country | Region | Place.

(** [bbox = [min_lng, min_lat, max_lng, max_lat]], a list of exactly four floats. *)
Record BBox := mkBBox {
  min_lng : float;
  min_lat : float;
  max_lng : float;
  max_lat : float }.

Inductive Node := mkNode {
  name : pystr;
  count : Z;
  area : float;
  bbox : option BBox;
  sum_lng : float;
  sum_lat : float;
  has_center : Z;
  regions : list (pystr * Node);
  places : list (pystr * Node) }.

(** [Node(name, level)]: both child dictionaries start empty at every level. *)
Definition Node_init (nm : pystr) (level : Level) : Node :=
  mkNode nm 0 0%float None 0%float 0%float 0
    (match level with Country => [] | _ => [] end)
    (match level with Region => [] | _ => [] end).

Definition update_node (node : Node) (lat lng ar : option float) : Node :=
  let count' := count node + 1 in
  let area' := match ar with Some a => (area node + a)%float | None => area node end in
  match lat, lng with
  | Some la, Some ln =>
      mkNode (name node) count' area'
        (Some match bbox node with
              | None => mkBBox ln la ln la
              | Some b => mkBBox (py_min (min_lng b) ln) (py_min (min_lat b) la)
                                 (py_max (max_lng b) ln) (py_max (max_lat b) la)
              end)
        (sum_lng node + ln)%float (sum_lat node + la)%float (has_center node + 1)
        (regions node) (places node)
  | _, _ =>
      mkNode (name node) count' area' (bbox node) (sum_lng node) (sum_lat node)
        (has_center node) (regions node) (places node)
  end.

Definition set_regions (node : Node) (rs : Dict Node) : Node :=
  mkNode (name node) (count node) (area node) (bbox node) (sum_lng node)
    (sum_lat node) (has_center node) rs (places node).

Definition set_places (node : Node) (ps : Dict Node) : Node :=
  mkNode (name node) (count node) (area node) (bbox node) (sum_lng node)
    (sum_lat node) (has_center node) (regions node) ps.

(** ** Normalised feature records *)

(** The six locals of the loop body once lines 77-96 have run: the three names
    and the three numbers, [None] for a number that is absent. *)
Record Rec := mkRec {
  rec_country : pystr;
  rec_region : pystr;
  rec_place : pystr;
  rec_lat : option float;
  rec_lng : option float;
  rec_area : option float }.

Definition Sin_pais : pystr := str "Sin pa" ++ [237%N] ++ str "s".
Definition Sin_region : pystr := str "Sin regi" ++ [243%N] ++ str "n".
Definition Sin_lugar : pystr := str "Sin lugar".

(** [(v or "").strip() or fallback] *)
Definition name_field (v : option PyVal) (fallback : pystr) : Result pystr :=
  s <- py_strip (py_or v (Some (VStr []))) ;;
  Ok (match s with [] => fallback | _ => s end).

(** The aggregation of one record: the three [setdefault] lookups and the three
    [update_node] calls.  The three nodes are distinct objects, each reached only
    through its parent's dictionary, so the mutations are written back along
    that path. *)
Definition aggregate (countries : Dict Node) (r : Rec) : Dict Node :=
  let '(countries1, country_node) :=
    dict_setdefault countries (rec_country r) (Node_init (rec_country r) Country) in
  let '(regions1, region_node) :=
    dict_setdefault (regions country_node) (rec_region r) (Node_init (rec_region r) Region) in
  let '(places1, place_node) :=
    dict_setdefault (places region_node) (rec_place r) (Node_init (rec_place r) Place) in
  let country_node' := update_node country_node (rec_lat r) (rec_lng r) (rec_area r) in
  let region_node' := update_node region_node (rec_lat r) (rec_lng r) (rec_area r) in
  let place_node' := update_node place_node (rec_lat r) (rec_lng r) (rec_area r) in
  let region_node'' := set_places region_node' (dict_set places1 (rec_place r) place_node') in
  let country_node'' := set_regions country_node' (dict_set regions1 (rec_region r) region_node'') in
  dict_set countries1 (rec_country r) country_node''.

(** The tree after a stream of records, from the empty dictionary. *)
Definition aggregate_all (rs : list Rec) : Dict Node := fold_left aggregate rs [].

(** ** Serialisation *)

Inductive json :=
| JStr (s : pystr)
| JInt (n : Z)
| JFloat (f : float)
| JList (l : list json)
| JObj (kvs : list (pystr * json)).

Definition obj_get (j : json) (k : pystr) : option json :=
  match j with
  | JObj kvs => dict_get kvs k
  | _ => None
  end.

Definition obj_items (j : json) : list (pystr * json) :=
  match j with
  | JObj kvs => kvs
  | _ => []
  end.

(** The entries every level shares: name, count, area, and bbox and center
    when the node has them. *)
Definition node_fields (node : Node) : list (pystr * json) :=
  [ (str "name", JStr (name node));
    (str "count", JInt (count node));
    (str "area", JFloat (round6 (area node))) ]
  ++ match bbox node with
     | Some b => [ (str "bbox", JList [ JFloat (round6 (min_lng b)); JFloat (round6 (min_lat b));
                                        JFloat (round6 (max_lng b)); JFloat (round6 (max_lat b)) ]) ]
     | None => []
     end
  ++ (if has_center node =? 0 then []
      else [ (str "center", JList [ JFloat (round6 (div_int (sum_lng node) (has_center node)));
                                    JFloat (round6 (div_int (sum_lat node) (has_center node))) ]) ]).

Definition serialize_children (f : Node -> json) (d : Dict Node) : json :=
  JObj (map (fun '(nm, child) => (nm, f child)) (sorted_items d)).

Definition serialize_place (node : Node) : json := JObj (node_fields node).

Definition serialize_region (node : Node) : json :=
  JObj (node_fields node ++ [ (str "places", serialize_children serialize_place (places node)) ]).

Definition serialize_country (node : Node) : json :=
  JObj (node_fields node ++ [ (str "regions", serialize_children serialize_region (regions node)) ]).

Definition serialize (node : Node) (level : Level) : json :=
  match level with
  | Country => serialize_country node
  | Region => serialize_region node
  | Place => serialize_place node
  end.

Definition PMTILES_NAME : pystr := str "piscinas.pmtiles".
Definition LAYER_NAME : pystr := str "piscinas_merged".

(** The value [build_filters] returns for a finished tree. *)
Definition document (countries : Dict Node) : json :=
  JObj [ (str "generated_from", JStr PMTILES_NAME);
         (str "layer", JStr LAYER_NAME);
         (str "countries", serialize_children (fun n => serialize n Country) countries) ].

(** ** Tiles *)

Record Feature := mkFeature { properties : option Props }.
Record Layer := mkLayer { features : option (list Feature) }.
Definition Tile := Dict Layer.
Definition bytes := list Byte.byte.
Definition TileId := (Z * Z * Z)%type.

(** ** The pipeline *)

Section Pipeline.

(** [float(s)] for a [str]: [None] stands for [ValueError]. *)
Variable float_of_str : pystr -> option float.

(** [mapbox_vector_tile.decode(gzip.decompress(raw))]: [None] stands for any
    exception of the two calls. *)
Variable decode_tile : bytes -> option Tile.

(** [float(v)] *)
Definition py_float (v : PyVal) : Result float :=
  match v with
  | VStr s => match float_of_str s with Some f => Ok f | None => Raise ValueError end
  | VInt n => float_of_int n
  | VFloat f => Ok f
  | VBool b => Ok (if b then 1%float else 0%float)
  end.

(** [try: x = float(x) if x is not None else None
    except (TypeError, ValueError): x = None] *)
Definition to_float (v : option PyVal) : Result (option float) :=
  match v with
  | None => Ok None
  | Some v =>
      match py_float v with
      | Ok f => Ok (Some f)
      | Raise TypeError | Raise ValueError => Ok None
      | Raise e => Raise e
      end
  end.

(** The feature normaliser: names with their fallbacks, then the numbers. *)
Definition normalize (props : Props) : Result Rec :=
  country <- name_field (dict_get props (str "country")) Sin_pais ;;
  region <- name_field (py_or (dict_get props (str "region")) (dict_get props (str "district")))
              Sin_region ;;
  place <- name_field (py_or (dict_get props (str "place")) (dict_get props (str "label")))
             Sin_lugar ;;
  let lat := py_or (dict_get props (str "centroid_lat")) (dict_get props (str "lat")) in
  let lng := py_or (dict_get props (str "centroid_lng")) (dict_get props (str "lng")) in
  let ar := py_or (dict_get props (str "area")) (dict_get props (str "area_ha")) in
  lat <- to_float lat ;;
  lng <- to_float lng ;;
  ar <- to_float ar ;;
  Ok (mkRec country region place lat lng ar).

(** [props = feature.get("properties") or {}] and the body of the inner loop. *)
Definition process_feature (countries : Dict Node) (feature : Feature) : Result (Dict Node) :=
  let props := match properties feature with Some p => p | None => [] end in
  r <- normalize props ;;
  Ok (aggregate countries r).

Fixpoint process_features (fs : list Feature) (countries : Dict Node) : Result (Dict Node) :=
  match fs with
  | [] => Ok countries
  | f :: fs' => c <- process_feature countries f ;; process_features fs' c
  end.

(** One iteration of the loop over tiles: a tile that fails to decode and a
    tile without the layer are skipped; [layer.get("features", [])] is read
    otherwise.  (A layer that is an empty mapping is skipped by [if not layer];
    it has no features, so reading them gives the same tree.) *)
Definition process_tile (countries : Dict Node) (raw_tile : bytes) : Result (Dict Node) :=
  match decode_tile raw_tile with
  | None => Ok countries
  | Some tile =>
      match dict_get tile LAYER_NAME with
      | None => Ok countries
      | Some layer =>
          process_features (match features layer with Some fs => fs | None => [] end)
            countries
      end
  end.

Fixpoint process_tiles (tiles : list (TileId * bytes)) (countries : Dict Node)
  : Result (Dict Node) :=
  match tiles with
  | [] => Ok countries
  | (_, raw_tile) :: tiles' => c <- process_tile countries raw_tile ;; process_tiles tiles' c
  end.

(** [build_filters()], as a function of the tiles [all_tiles] yields. *)
Definition build_filters (tiles : list (TileId * bytes)) : Result json :=
  countries <- process_tiles tiles [] ;;
  Ok (document countries).

End Pipeline.

(** ** Vocabulary of the properties *)

(** One [update_node] call with the numbers of a record. *)
Definition step (node : Node) (r : Rec) : Node :=
  update_node node (rec_lat r) (rec_lng r) (rec_area r).

(** A node after the updates of a list of records, in order. *)
Definition fold_updates (rs : list Rec) (node : Node) : Node := fold_left step rs node.

(** The fields [update_node] works on. *)
Definition stats (node : Node) : pystr * Z * float * option BBox * float * float * Z :=
  (name node, count node, area node, bbox node, sum_lng node, sum_lat node, has_center node).

(** The record supplies both coordinates. *)
Definition has_coords (r : Rec) : bool :=
  match rec_lat r, rec_lng r with
  | Some _, Some _ => true
  | _, _ => false
  end.

(** The areas the records supply, in order. *)
Definition supplied_areas (rs : list Rec) : list float :=
  flat_map (fun r => match rec_area r with Some a => [a] | None => [] end) rs.

Definition Zsum (l : list Z) : Z := fold_right Z.add 0 l.

(** The position of a node in the tree, by the names that lead to it. *)
Inductive Path :=
| PCountry (c : pystr)
| PRegion (c g : pystr)
| PPlace (c g p : pystr).

Definition path_level (p : Path) : Level :=
  match p with
  | PCountry _ => Country
  | PRegion _ _ => Region
  | PPlace _ _ _ => Place
  end.

Definition path_name (p : Path) : pystr :=
  match p with
  | PCountry c => c
  | PRegion _ g => g
  | PPlace _ _ pl => pl
  end.

Definition node_at (countries : Dict Node) (p : Path) : option Node :=
  match p with
  | PCountry c => dict_get countries c
  | PRegion c g =>
      match dict_get countries c with
      | Some cn => dict_get (regions cn) g
      | None => None
      end
  | PPlace c g pl =>
      match dict_get countries c with
      | Some cn =>
          match dict_get (regions cn) g with
          | Some rn => dict_get (places rn) pl
          | None => None
          end
      | None => None
      end
  end.

(** The record names the node at this path, so it is folded into it. *)
Definition names (p : Path) (r : Rec) : bool :=
  match p with
  | PCountry c => str_eqb (rec_country r) c
  | PRegion c g => str_eqb (rec_country r) c && str_eqb (rec_region r) g
  | PPlace c g pl =>
      str_eqb (rec_country r) c && str_eqb (rec_region r) g && str_eqb (rec_place r) pl
  end.

Definition routed (p : Path) (rs : list Rec) : list Rec := filter (names p) rs.

(** The invariant of a node: no more coordinate pairs than records, never
    a negative number of them, and a bbox exactly when there is a pair. *)
Definition node_inv (node : Node) : Prop :=
  0 <= has_center node <= count node
  /\ (bbox node <> None <-> 0 < has_center node).

Definition bbox_not_nan (b : BBox) : bool :=
  not_nan (min_lng b) && not_nan (min_lat b) && not_nan (max_lng b) && not_nan (max_lat b).

(** The point lies within the box. *)
Definition bbox_contains (b : BBox) (lng lat : float) : Prop :=
  fle (min_lng b) lng /\ fle lng (max_lng b) /\ fle (min_lat b) lat /\ fle lat (max_lat b).

(** The box [b'] covers the box [b]. *)
Definition bbox_covers (b' b : BBox) : Prop :=
  fle (min_lng b') (min_lng b) /\ fle (max_lng b) (max_lng b')
  /\ fle (min_lat b') (min_lat b) /\ fle (max_lat b) (max_lat b').

(** *** The aggregation level by level

    [upsert] is the look-up-or-create of one level followed by the store of the
    updated value; the three levels nest.  [aggregate] is shown equal to
    [country_step] below. *)
Section Upsert.
Context {V : Type}.
Variable key : Rec -> pystr.
Variable init : pystr -> V.
Variable f : V -> Rec -> V.

Definition upsert (d : Dict V) (r : Rec) : Dict V :=
  dict_set d (key r)
    (f (match dict_get d (key r) with Some v => v | None => init (key r) end) r).

Definition key_is (k : pystr) (r : Rec) : bool := str_eqb (key r) k.
End Upsert.

Definition place_step : Dict Node -> Rec -> Dict Node :=
  upsert rec_place (fun k => Node_init k Place) step.

Definition region_update (rn : Node) (r : Rec) : Node :=
  set_places (step rn r) (place_step (places rn) r).

Definition region_step : Dict Node -> Rec -> Dict Node :=
  upsert rec_region (fun k => Node_init k Region) region_update.

Definition country_update (cn : Node) (r : Rec) : Node :=
  set_regions (step cn r) (region_step (regions cn) r).

Definition country_step : Dict Node -> Rec -> Dict Node :=
  upsert rec_country (fun k => Node_init k Country) country_update.

(** Keys strictly ascending. *)
Definition ascending (l : list pystr) : Prop := StronglySorted str_lt l.

(** Distinct names in every dictionary of the tree. *)
Definition tree_wf (countries : Dict Node) : Prop :=
  NoDup (keys countries)
  /\ forall c cn, In (c, cn) countries ->
       NoDup (keys (regions cn))
       /\ forall g rn, In (g, rn) (regions cn) -> NoDup (keys (places rn)).

(** No name is supplied: the value is missing, falsy, or blank text. *)
Definition no_name (v : option PyVal) : Prop :=
  truthy_opt v = false \/ exists s, v = Some (VStr s) /\ strip s = [].

(** ** Sample data

    A parser and a decoder to run the pipeline on concrete tiles.  The parser
    reads the plain spellings of a float: blanks around it, a sign, [inf],
    [infinity], [nan], or decimal digits with an optional fraction and exponent
    (the spellings with underscores or non-ASCII digits, which [float] also
    reads, are refused by it).  The decoder knows two payloads, the two tiles
    of the specification's scenario. *)

(** The blanks [float] skips around a number: those of [str.strip] but for the
    four separators U+001C to U+001F. *)
Definition float_isspace (c : codepoint) : bool :=
  isspace c && negb ((28 <=? c) && (c <=? 31))%N.

Fixpoint float_lstrip (s : pystr) : pystr :=
  match s with
  | c :: s' => if float_isspace c then float_lstrip s' else s
  | [] => []
  end.

Definition float_strip (s : pystr) : pystr := rev (float_lstrip (rev (float_lstrip s))).

Definition is_digit (c : codepoint) : bool := ((48 <=? c) && (c <=? 57))%N.

Fixpoint take_digits (s : pystr) : pystr * pystr :=
  match s with
  | c :: s' => if is_digit c then let '(d, rest) := take_digits s' in (c :: d, rest) else ([], s)
  | [] => ([], [])
  end.

Definition digits_value (d : pystr) : Z :=
  fold_left (fun acc c => 10 * acc + (Z.of_N c - 48)) d 0.

Definition lower (c : codepoint) : codepoint :=
  if ((65 <=? c) && (c <=? 90))%N then (c + 32)%N else c.

Definition take_sign (s : pystr) : bool * pystr :=
  match s with
  | 45%N :: s' => (true, s')
  | 43%N :: s' => (false, s')
  | _ => (false, s)
  end.

(** The float nearest to [(-1)^sign * m * 10^e]. *)
Definition decimal_to_float (sign : bool) (m : Z) (e : Z) : float :=
  match m with
  | Zpos p =>
      if 0 <=? e then SF2Prim (binary_normalize prec emax (if sign then - (m * 10 ^ e) else m * 10 ^ e) 0 false)
      else SF2Prim (SFdiv prec emax (S754_finite sign p 0)
                      (S754_finite false (Z.to_pos (10 ^ (- e))) 0))
  | _ => if sign then (-0)%float else 0%float
  end.

Definition sample_float_of_str (s : pystr) : option float :=
  let '(sign, body) := take_sign (float_strip s) in
  let low := map lower body in
  if str_eqb low (str "inf") || str_eqb low (str "infinity")
  then Some (if sign then neg_infinity else infinity)
  else if str_eqb low (str "nan") then Some nan
  else
    let '(int_part, rest) := take_digits body in
    let '(frac_part, rest) :=
      match rest with
      | 46%N :: rest' => take_digits rest'
      | _ => ([], rest)
      end in
    match int_part ++ frac_part with
    | [] => None
    | ds =>
        let m := digits_value ds in
        let shift := - Z.of_nat (List.length frac_part) in
        match rest with
        | [] => Some (decimal_to_float sign m shift)
        | c :: rest' =>
            if (lower c =? 101)%N then
              let '(esign, ebody) := take_sign rest' in
              match take_digits ebody with
              | ((_ :: _) as ed, []) =>
                  let ev := digits_value ed in
                  Some (decimal_to_float sign m (shift + (if esign then - ev else ev)))
              | _ => None
              end
            else None
        end
    end.

Definition Maipu : pystr := str "Maip" ++ [250%N].

Definition sample_tile_a : Tile :=
  [ (LAYER_NAME, mkLayer (Some [ mkFeature (Some
      [ (str "country", VStr (str "Chile")); (str "region", VStr (str "RM"));
        (str "place", VStr Maipu); (str "lat", VFloat (-33.5)%float);
        (str "lng", VFloat (-70.7)%float); (str "area", VFloat 120%float) ]) ])) ].

Definition sample_tile_b : Tile :=
  [ (LAYER_NAME, mkLayer (Some [ mkFeature (Some
      [ (str "country", VStr (str "Chile")); (str "region", VStr (str "RM"));
        (str "place", VStr (str "Santiago")); (str "area", VFloat 50%float) ]) ])) ].

Definition sample_decode (raw : bytes) : option Tile :=
  match raw with
  | [ Byte.x01 ] => Some sample_tile_a
  | [ Byte.x02 ] => Some sample_tile_b
  | _ => None
  end.

Definition sample_tiles : list (TileId * bytes) :=
  [ ((0, 0, 0), [ Byte.x01 ]); ((1, 0, 0), [ Byte.xff; Byte.x00 ]); ((1, 1, 0), [ Byte.x02 ]) ].

(** The two records of the scenario, a node that saw the first of them, and
    three records whose areas do not add up the same way in every order. *)
Definition sample_records : list Rec :=
  [ mkRec (str "Chile") (str "RM") Maipu (Some (-33.5)%float) (Some (-70.7)%float)
      (Some 120%float);
    mkRec (str "Chile") (str "RM") (str "Santiago") None None (Some 50%float) ].

Definition sample_node : Node :=
  update_node (Node_init Maipu Place) (Some (-33.5)%float) (Some (-70.7)%float)
    (Some 120%float).

Definition tenths_records : list Rec :=
  [ mkRec (str "C") (str "A") (str "p") None None (Some 0.1%float);
    mkRec (str "C") (str "B") (str "q") None None (Some 0.2%float);
    mkRec (str "C") (str "B") (str "q") None None (Some 0.3%float) ].

Definition negative_area_records : list Rec :=
  [ mkRec (str "C") (str "A") (str "p") None None (Some (-1)%float) ].

(** Property mappings: a feature that names its country only, one whose country
    is a number, and two whose [centroid_lat] is 0.0. *)
Definition country_only_props : Props := [ (str "country", VStr (str "Chile")) ].

Definition numeric_name_props : Props := [ (str "country", VInt 42) ].

Definition numeric_name_tile : Tile :=
  [ (LAYER_NAME, mkLayer (Some [ mkFeature (Some numeric_name_props) ])) ].

Definition zero_lat_props : Props :=
  [ (str "centroid_lat", VFloat 0%float); (str "centroid_lng", VFloat 10%float) ].

Definition zero_lat_two_keys_props : Props :=
  [ (str "centroid_lat", VFloat 0%float); (str "centroid_lng", VFloat 10%float);
    (str "lat", VFloat 45%float) ].

(** The value under a path of keys in a document. *)
Fixpoint obj_path (j : json) (path : list pystr) : option json :=
  match path with
  | [] => Some j
  | k :: path' =>
      match obj_get j k with
      | Some j' => obj_path j' path'
      | None => None
      end
  end.

(** ** Vocabulary of the further properties *)

(** The (lng, lat) pairs of the records that carry both coordinates, in order. *)
Definition coords (rs : list Rec) : list (float * float) :=
  flat_map (fun r => match rec_lat r, rec_lng r with
                     | Some la, Some ln => [(ln, la)]
                     | _, _ => []
                     end) rs.

(** Neither coordinate of the pair is NaN. *)
Definition pair_not_nan (q : float * float) : bool := not_nan (fst q) && not_nan (snd q).

(** The bounds of a node's bbox against the points folded into it: no bbox
    before the first point; afterwards every point lies within the box and
    each bound is a coordinate of one of the points. *)
Definition bbox_of_points (pts : list (float * float)) (node : Node) : Prop :=
  match bbox node with
  | None => pts = []
  | Some b =>
      bbox_not_nan b = true
      /\ (forall q, In q pts -> bbox_contains b (fst q) (snd q))
      /\ In (min_lng b) (map fst pts) /\ In (max_lng b) (map fst pts)
      /\ In (min_lat b) (map snd pts) /\ In (max_lat b) (map snd pts)
  end.

(** The features one raw tile contributes: none when it does not decode or
    lacks the layer. *)
Definition tile_features (decode_tile : bytes -> option Tile) (raw_tile : bytes)
  : list Feature :=
  match decode_tile raw_tile with
  | None => []
  | Some tile =>
      match dict_get tile LAYER_NAME with
      | None => []
      | Some layer => match features layer with Some fs => fs | None => [] end
      end
  end.

Definition all_features (decode_tile : bytes -> option Tile)
    (tiles : list (TileId * bytes)) : list Feature :=
  flat_map (fun t => tile_features decode_tile (snd t)) tiles.

(** [feature.get("properties") or {}] *)
Definition feature_props (feature : Feature) : Props :=
  match properties feature with Some p => p | None => [] end.

(** The records of a list of features, in order; the first feature whose
    normalisation raises ends the run with its exception. *)
Fixpoint normalize_all (float_of_str : pystr -> option float) (fs : list Feature)
  : Result (list Rec) :=
  match fs with
  | [] => Ok []
  | f :: fs' =>
      r <- normalize float_of_str (feature_props f) ;;
      rs <- normalize_all float_of_str fs' ;;
      Ok (r :: rs)
  end.

(** [len(filters['countries'])], the number [main] prints. *)
Definition countries_written (filters : json) : option nat :=
  match obj_get filters (str "countries") with
  | Some j => Some (List.length (obj_items j))
  | None => None
  end.

(** An integer a vector tile can hold (int64, uint64 or sint64). *)
Definition mvt_int (n : Z) : Prop := - 2 ^ 63 <= n < 2 ^ 64.

Definition mvt_value (v : PyVal) : Prop :=
  match v with
  | VInt n => mvt_int n
  | _ => True
  end.

(** Every integer of the mapping fits a vector tile. *)
Definition mvt_props (props : Props) : Prop := Forall (fun kv => mvt_value (snd kv)) props.

(** Text, or a value that [or] skips. *)
Definition text_or_falsy (v : option PyVal) : bool :=
  match v with
  | Some (VStr _) => true
  | Some x => negb (truthy x)
  | None => true
  end.

(** No blank at either end. *)
Definition stripped (s : pystr) : Prop := strip s = s.

(** Where the node at a path of the tree is found in the document. *)
Definition doc_path (p : Path) : list pystr :=
  match p with
  | PCountry c => [ str "countries"; c ]
  | PRegion c g => [ str "countries"; c; str "regions"; g ]
  | PPlace c g pl => [ str "countries"; c; str "regions"; g; str "places"; pl ]
  end.

(** A decoder that also knows a tile with another layer only and a tile that
    holds both features of the scenario. *)
Definition other_layer_tile : Tile :=
  [ (str "roads", mkLayer (Some [ mkFeature (Some country_only_props) ])) ].

Definition sample_tile_ab : Tile :=
  [ (LAYER_NAME, mkLayer (Some
      (match dict_get sample_tile_a LAYER_NAME, dict_get sample_tile_b LAYER_NAME with
       | Some la, Some lb =>
           match features la, features lb with
           | Some fa, Some fb => fa ++ fb
           | _, _ => []
           end
       | _, _ => []
       end))) ].

Definition sample_decode_more (raw : bytes) : option Tile :=
  match raw with
  | [ Byte.x03 ] => Some other_layer_tile
  | [ Byte.x04 ] => Some sample_tile_ab
  | _ => sample_decode raw
  end.

(** Not an infinity. *)
Definition not_inf (s : spec_float) : Prop :=
  match s with
  | S754_infinity _ => False
  | _ => True
  end.

(** Empty, or not starting with a blank. *)
Definition starts_clean (s : pystr) : Prop :=
  match s with
  | [] => True
  | c :: _ => isspace c = false
  end.

(** A feature whose region is one blank and whose district is named. *)
Definition blank_region_props : Props :=
  [ (str "country", VStr (str "Chile")); (str "region", VStr (str " "));
    (str "district", VStr (str "Maipo")) ].

(** A feature with padded names, an integer area and a textual latitude. *)
Definition padded_props : Props :=
  [ (str "country", VStr (str "  Chile ")); (str "label", VStr (str "Laguna"));
    (str "area", VInt 12); (str "lat", VStr (str "-33.5")); (str "lng", VBool true) ].

(** The three name values the normaliser selects are text or falsy. *)
Definition names_are_text (props : Props) : bool :=
  text_or_falsy (dict_get props (str "country"))
  && text_or_falsy (py_or (dict_get props (str "region")) (dict_get props (str "district")))
  && text_or_falsy (py_or (dict_get props (str "place")) (dict_get props (str "label"))).

(** A feature whose coordinates are NaN, and one at latitude 1.0 and
    longitude 2.0. *)
Definition nan_props : Props := [ (str "lat", VFloat nan); (str "lng", VFloat nan) ].

Definition point_props : Props := [ (str "lat", VFloat 1%float); (str "lng", VFloat 2%float) ].

(** The keys of the mapping under a path of the document, in the order the
    mapping lists them. *)
Definition mapping_keys (doc : json) (path : list pystr) : option (list pystr) :=
  option_map (fun j => keys (obj_items j)) (obj_path doc path).

(** ** Rounding to six decimals, as a specification *)

(** [k] is the integer nearest to the fraction [num / den], and the even one
    of the two nearest when the fraction lies half way between them. *)
Definition nearest_even (num den k : Z) : Prop :=
  Z.abs (2 * num - 2 * k * den) <= den
  /\ (Z.abs (2 * num - 2 * k * den) = den -> Z.even k = true).

(** The magnitude of a finite float of mantissa [m] and exponent [e], times
    10^6, is the fraction [scaled_num m e / scaled_den e]. *)
Definition scaled_num (m : positive) (e : Z) : Z := Zpos m * 1000000 * 2 ^ Z.max e 0.
Definition scaled_den (e : Z) : Z := 2 ^ Z.max (- e) 0.

(** The float nearest to [k / 10^6], with the sign [s]. *)
Definition millionths (s : bool) (k : Z) : float :=
  match k with
  | Zpos p => SF2Prim (SFdiv prec emax (S754_finite s p 0) (S754_finite false 1000000 0))
  | _ => SF2Prim (S754_zero s)
  end.

(** [y] is [x] rounded to six decimals: for a finite non-zero [x], the float
    nearest to [k / 10^6] where [k] is the integer nearest to [|x| * 10^6]
    (ties to even), with the sign of [x]; a zero, an infinity and NaN are their
    own roundings. *)
Definition rounded6 (x y : float) : Prop :=
  match Prim2SF x with
  | S754_finite s m e =>
      exists k, 0 <= k /\ nearest_even (scaled_num m e) (scaled_den e) k /\ y = millionths s k
  | _ => y = x
  end.

(** The float [f] is exactly the positive integer [n]. *)
Definition float_is_int (f : float) (n : Z) : Prop :=
  exists m e, Prim2SF f = S754_finite false m e /\ e <= 0 /\ Zpos m = n * 2 ^ (- e).

(** A tile whose features name Peru before Chile and Lima before Cusco; the
    two features of Peru carry coordinates. *)
Definition unsorted_tile : Tile :=
  [ (LAYER_NAME, mkLayer (Some
      [ mkFeature (Some
          [ (str "country", VStr (str "Peru")); (str "region", VStr (str "Lima"));
            (str "place", VStr (str "Miraflores")); (str "lat", VFloat 1.5%float);
            (str "lng", VFloat 10.0000001%float) ]);
        mkFeature (Some
          [ (str "country", VStr (str "Chile")); (str "region", VStr (str "RM"));
            (str "place", VStr (str "Santiago")) ]);
        mkFeature (Some
          [ (str "country", VStr (str "Peru")); (str "region", VStr (str "Cusco"));
            (str "place", VStr (str "Cusco")); (str "lat", VFloat 2.5%float);
            (str "lng", VFloat 20.0000003%float) ]) ])) ].

Definition unsorted_decode (raw : bytes) : option Tile :=
  match raw with
  | [ Byte.x05 ] => Some unsorted_tile
  | _ => None
  end.

Definition unsorted_records : list Rec :=
  [ mkRec (str "Peru") (str "Lima") (str "Miraflores") (Some 1.5%float)
      (Some 10.0000001%float) None;
    mkRec (str "Chile") (str "RM") (str "Santiago") None None None;
    mkRec (str "Peru") (str "Cusco") (str "Cusco") (Some 2.5%float)
      (Some 20.0000003%float) None ].

(** * Properties *)

(** ** Strings: equality test and order *)

Lemma str_eqb_eq (a b : pystr) : str_eqb a b = true <-> a = b.
Proof.
  revert b; induction a as [|x a IH]; intros [|y b]; simpl; split; intro H;
    try reflexivity; try discriminate.
  - apply andb_true_iff in H as [Hx Hab].
    apply N.eqb_eq in Hx. apply IH in Hab. congruence.
  - injection H as -> ->. rewrite N.eqb_refl. simpl. now apply IH.
Qed.

Lemma str_eqb_refl (a : pystr) : str_eqb a a = true.
Proof. now apply str_eqb_eq. Qed.

Lemma str_eqb_neq (a b : pystr) : str_eqb a b = false <-> a <> b.
Proof.
  split.
  - intros H E. apply str_eqb_eq in E. congruence.
  - intro H. destruct (str_eqb a b) eqn:E; [|reflexivity].
    apply str_eqb_eq in E. contradiction.
Qed.

Lemma str_eqb_sym (a b : pystr) : str_eqb a b = str_eqb b a.
Proof.
  destruct (str_eqb a b) eqn:E.
  - apply str_eqb_eq in E. subst. now rewrite str_eqb_refl.
  - symmetry. apply str_eqb_neq. apply str_eqb_neq in E. congruence.
Qed.

Lemma str_ltb_irrefl (a : pystr) : str_ltb a a = false.
Proof.
  induction a as [|x a IH]; simpl; [reflexivity|].
  now rewrite N.ltb_irrefl, N.eqb_refl.
Qed.

Lemma str_ltb_asym (a b : pystr) : str_ltb a b = true -> str_ltb b a = false.
Proof.
  revert b; induction a as [|x a IH]; intros [|y b]; simpl; try easy.
  destruct (N.ltb_spec x y) as [Hxy|Hxy].
  - intros _. destruct (N.ltb_spec y x); [lia|].
    destruct (N.eqb_spec y x); [lia|reflexivity].
  - destruct (N.eqb_spec x y) as [->|Hne]; [|discriminate].
    intro H. rewrite N.ltb_irrefl, N.eqb_refl. now apply IH.
Qed.

Lemma str_ltb_trans (a b c : pystr) :
  str_ltb a b = true -> str_ltb b c = true -> str_ltb a c = true.
Proof.
  revert b c; induction a as [|x a IH]; intros [|y b] [|z c]; simpl; try easy.
  destruct (N.ltb_spec x y) as [Hxy|Hxy].
  - intros _. destruct (N.ltb_spec y z) as [Hyz|Hyz].
    + intros _. destruct (N.ltb_spec x z); [reflexivity|lia].
    + destruct (N.eqb_spec y z) as [->|]; [|discriminate].
      intros _. destruct (N.ltb_spec x z); [reflexivity|lia].
  - destruct (N.eqb_spec x y) as [->|]; [|discriminate].
    intro Hab. destruct (N.ltb_spec y z) as [Hyz|Hyz]; [reflexivity|].
    destruct (N.eqb_spec y z) as [->|]; [|discriminate].
    now apply IH.
Qed.

(** Two strings neither of which is below the other are equal. *)
Lemma str_ltb_total (a b : pystr) :
  str_ltb a b = false -> str_ltb b a = false -> a = b.
Proof.
  revert b; induction a as [|x a IH]; intros [|y b]; simpl; try easy.
  destruct (N.ltb_spec x y) as [Hxy|Hxy]; [discriminate|].
  destruct (N.eqb_spec x y) as [->|Hne].
  - rewrite N.ltb_irrefl, N.eqb_refl. intros H1 H2. f_equal. now apply IH.
  - intros _. destruct (N.ltb_spec y x); [discriminate|lia].
Qed.

#[local] Instance str_lt_trans : RelationClasses.Transitive str_lt.
Proof. intros a b c. apply str_ltb_trans. Qed.

(** ** Dictionaries *)

Section DictFacts.
Context {V : Type}.
Implicit Types (d : Dict V) (k : pystr) (v : V).

Lemma dict_get_set_same d k v : dict_get (dict_set d k v) k = Some v.
Proof.
  induction d as [|[k' v'] d IH]; simpl.
  - now rewrite str_eqb_refl.
  - destruct (str_eqb k' k) eqn:E; simpl; rewrite E; [reflexivity|exact IH].
Qed.

Lemma dict_get_set_other d k k' v :
  k <> k' -> dict_get (dict_set d k v) k' = dict_get d k'.
Proof.
  intro Hne. induction d as [|[k0 v0] d IH]; simpl.
  - apply str_eqb_neq in Hne. now rewrite Hne.
  - destruct (str_eqb k0 k) eqn:E; simpl.
    + apply str_eqb_eq in E. subst k0.
      apply str_eqb_neq in Hne. now rewrite Hne.
    + now rewrite IH.
Qed.

Lemma dict_get_set d k k' v :
  dict_get (dict_set d k v) k' = if str_eqb k k' then Some v else dict_get d k'.
Proof.
  destruct (str_eqb k k') eqn:E.
  - apply str_eqb_eq in E. subst. apply dict_get_set_same.
  - apply dict_get_set_other. now apply str_eqb_neq.
Qed.

Lemma dict_set_set d k v v' : dict_set (dict_set d k v) k v' = dict_set d k v'.
Proof.
  induction d as [|[k0 v0] d IH]; simpl.
  - now rewrite str_eqb_refl.
  - destruct (str_eqb k0 k) eqn:E; simpl; rewrite E; [reflexivity|now rewrite IH].
Qed.

Lemma dict_get_In d k v : dict_get d k = Some v -> In (k, v) d.
Proof.
  induction d as [|[k0 v0] d IH]; simpl; [discriminate|].
  destruct (str_eqb k0 k) eqn:E.
  - apply str_eqb_eq in E. intros [= ->]. left. congruence.
  - intro H. right. now apply IH.
Qed.

Lemma dict_get_None d k : dict_get d k = None <-> ~ In k (keys d).
Proof.
  induction d as [|[k0 v0] d IH]; simpl.
  - tauto.
  - destruct (str_eqb k0 k) eqn:E.
    + apply str_eqb_eq in E. split; [discriminate|]. intro H. exfalso. apply H. now left.
    + apply str_eqb_neq in E. rewrite IH. tauto.
Qed.

Lemma In_dict_get d k v : NoDup (keys d) -> In (k, v) d -> dict_get d k = Some v.
Proof.
  induction d as [|[k0 v0] d IH]; simpl; [tauto|].
  intros Hnd [H|H].
  - injection H as -> ->. now rewrite str_eqb_refl.
  - inversion Hnd as [|? ? Hnotin Hnd']; subst.
    destruct (str_eqb k0 k) eqn:E.
    + apply str_eqb_eq in E. subst k0. exfalso. apply Hnotin.
      change k with (fst (k, v)). now apply in_map.
    + now apply IH.
Qed.

(** A key that is already present keeps the key list; a new key goes last. *)
Lemma keys_dict_set d k v :
  keys (dict_set d k v) = if existsb (str_eqb k) (keys d) then keys d else keys d ++ [k].
Proof.
  unfold keys. induction d as [|[k0 v0] d IH]; simpl; [reflexivity|].
  rewrite (str_eqb_sym k k0).
  destruct (str_eqb k0 k) eqn:E; simpl; [reflexivity|].
  rewrite IH. now destruct (existsb _ _).
Qed.

Lemma existsb_str_eqb_In k (l : list pystr) : existsb (str_eqb k) l = true <-> In k l.
Proof.
  rewrite existsb_exists. split.
  - intros (x & Hin & E). apply str_eqb_eq in E. now subst.
  - intro H. exists k. split; [assumption|apply str_eqb_refl].
Qed.

Lemma NoDup_keys_dict_set d k v : NoDup (keys d) -> NoDup (keys (dict_set d k v)).
Proof.
  intro Hnd. rewrite keys_dict_set.
  destruct (existsb (str_eqb k) (keys d)) eqn:E; [assumption|].
  assert (Hnotin : ~ In k (keys d)).
  { intro H. apply existsb_str_eqb_In in H. congruence. }
  clear E. induction (keys d) as [|x l IH]; simpl.
  - constructor; [easy|constructor].
  - inversion Hnd; subst. constructor.
    + rewrite in_app_iff. simpl. intros [H|[H|[]]]; [contradiction|].
      subst. apply Hnotin. now left.
    + apply IH; [assumption|]. intro H. apply Hnotin. now right.
Qed.

Lemma In_keys_dict_set d k k' v :
  In k' (keys (dict_set d k v)) <-> k' = k \/ In k' (keys d).
Proof.
  rewrite keys_dict_set. destruct (existsb (str_eqb k) (keys d)) eqn:E.
  - apply existsb_str_eqb_In in E. split; [tauto|]. intros [->|H]; assumption.
  - rewrite in_app_iff. simpl. intuition congruence.
Qed.

(** [setdefault] followed by a store under the same key is one store. *)
Lemma dict_setdefault_set d k v0 (f : V -> V) :
  dict_set (fst (dict_setdefault d k v0)) k (f (snd (dict_setdefault d k v0)))
  = dict_set d k (f (match dict_get d k with Some x => x | None => v0 end)).
Proof.
  unfold dict_setdefault. destruct (dict_get d k); simpl; [reflexivity|].
  apply dict_set_set.
Qed.

(** *** Sorting the items *)

Lemma insert_item_perm (x : pystr * V) l : Permutation (x :: l) (insert_item x l).
Proof.
  induction l as [|y l IH]; simpl; [reflexivity|].
  destruct (str_ltb (fst y) (fst x)); [|reflexivity].
  rewrite perm_swap. now apply perm_skip.
Qed.

Lemma sorted_items_perm d : Permutation d (sorted_items d).
Proof.
  induction d as [|x d IH]; simpl; [reflexivity|].
  rewrite <- insert_item_perm. now apply perm_skip.
Qed.

Lemma insert_item_sorted (x : pystr * V) l :
  Sorted key_le l -> Sorted key_le (insert_item x l).
Proof.
  induction l as [|y l IH]; simpl; intro Hs.
  - repeat constructor.
  - destruct (str_ltb (fst y) (fst x)) eqn:E.
    + inversion Hs as [|? ? Hs' Hhd]; subst. constructor; [now apply IH|].
      destruct l as [|z l]; simpl.
      * constructor. unfold key_le. now apply str_ltb_asym.
      * destruct (str_ltb (fst z) (fst x)).
        -- constructor. now inversion Hhd.
        -- constructor. unfold key_le. now apply str_ltb_asym.
    + constructor; [assumption|]. constructor. exact E.
Qed.

Lemma sorted_items_sorted d : Sorted (@key_le V) (sorted_items d).
Proof.
  induction d as [|x d IH]; simpl; [constructor|]. now apply insert_item_sorted.
Qed.

(** With distinct keys the sorted items ascend strictly. *)
Lemma sorted_items_ascending d :
  NoDup (keys d) -> StronglySorted str_lt (keys (sorted_items d)).
Proof.
  intro Hnd.
  assert (Hnd' : NoDup (keys (sorted_items d))).
  { eapply Permutation_NoDup; [|exact Hnd]. apply Permutation_map, sorted_items_perm. }
  apply Sorted_StronglySorted; [exact str_lt_trans|].
  pose proof (sorted_items_sorted d) as Hs.
  induction Hs as [|x l Hs IH Hhd]; simpl; [constructor|].
  simpl in Hnd'. inversion Hnd' as [|? ? Hnotin Hnd'']; subst.
  constructor; [now apply IH|].
  destruct Hhd as [|y l Hxy]; simpl; constructor.
  unfold str_lt. destruct (str_ltb (fst x) (fst y)) eqn:E; [reflexivity|].
  exfalso. apply Hnotin. simpl. left. symmetry. now apply str_ltb_total.
Qed.

End DictFacts.

(** ** Floating point comparisons and sums *)

Section FloatFacts.

Lemma SFcompare_antisym (a b : spec_float) (c : comparison) :
  SFcompare a b = Some c -> SFcompare b a = Some (CompOpp c).
Proof.
  destruct a as [sa|sa| |sa ma ea], b as [sb|sb| |sb mb eb]; simpl;
    try discriminate; intros [= <-];
    try (destruct sa; reflexivity); try (destruct sb; reflexivity);
    try (destruct sa, sb; reflexivity).
  pose proof (Pos.compare_cont_antisym ma mb Eq) as Hm. simpl in Hm.
  destruct sa, sb; try reflexivity; f_equal;
    rewrite (Z.compare_antisym ea eb); destruct (ea ?= eb); simpl; try reflexivity;
    rewrite <- Hm; now destruct (Pos.compare_cont Eq ma mb).
Qed.

Lemma SFcompare_refl (a : spec_float) : a <> S754_nan -> SFcompare a a = Some Eq.
Proof.
  destruct a as [sa|sa| |sa ma ea]; simpl; intro H; try reflexivity.
  - now destruct sa.
  - contradiction.
  - destruct sa; rewrite Z.compare_refl; f_equal.
    + now rewrite Pos.compare_cont_refl.
    + now rewrite Pos.compare_cont_refl.
Qed.

Lemma SFcompare_some (a b : spec_float) :
  a <> S754_nan -> b <> S754_nan -> exists c, SFcompare a b = Some c.
Proof.
  destruct a, b; simpl; intros Ha Hb; try contradiction; eauto.
Qed.

Lemma not_nan_SF (x : float) : not_nan x = true <-> Prim2SF x <> S754_nan.
Proof.
  unfold not_nan. rewrite FloatAxioms.eqb_spec. unfold SFeqb. split.
  - intros H E. rewrite E in H. discriminate.
  - intro H. now rewrite SFcompare_refl.
Qed.

Lemma fle_refl (x : float) : not_nan x = true -> fle x x.
Proof.
  intro H. apply not_nan_SF in H. unfold fle. rewrite FloatAxioms.leb_spec. unfold SFleb.
  now rewrite SFcompare_refl.
Qed.

Lemma ltb_fle (x y : float) : (x <? y)%float = true -> fle x y.
Proof.
  unfold fle. rewrite FloatAxioms.ltb_spec, FloatAxioms.leb_spec. unfold SFltb, SFleb.
  now destruct (SFcompare _ _) as [[]|].
Qed.

Lemma not_ltb_fle (x y : float) :
  not_nan x = true -> not_nan y = true -> (x <? y)%float = false -> fle y x.
Proof.
  intros Hx Hy. apply not_nan_SF in Hx, Hy.
  unfold fle. rewrite FloatAxioms.ltb_spec, FloatAxioms.leb_spec. unfold SFltb, SFleb.
  destruct (SFcompare_some _ _ Hx Hy) as [c Hc].
  rewrite Hc, (SFcompare_antisym _ _ _ Hc). now destruct c.
Qed.

Lemma py_min_cases (a b : float) : py_min a b = a \/ py_min a b = b.
Proof. unfold py_min. destruct (b <? a)%float; auto. Qed.

Lemma py_max_cases (a b : float) : py_max a b = a \/ py_max a b = b.
Proof. unfold py_max. destruct (a <? b)%float; auto. Qed.

Lemma py_min_not_nan (a b : float) :
  not_nan a = true -> not_nan b = true -> not_nan (py_min a b) = true.
Proof. destruct (py_min_cases a b) as [-> | ->]; auto. Qed.

Lemma py_max_not_nan (a b : float) :
  not_nan a = true -> not_nan b = true -> not_nan (py_max a b) = true.
Proof. destruct (py_max_cases a b) as [-> | ->]; auto. Qed.

Lemma py_min_le (a b : float) :
  not_nan a = true -> not_nan b = true -> fle (py_min a b) a /\ fle (py_min a b) b.
Proof.
  intros Ha Hb. unfold py_min. destruct (b <? a)%float eqn:E.
  - split; [now apply ltb_fle|now apply fle_refl].
  - split; [now apply fle_refl|now apply not_ltb_fle].
Qed.

Lemma py_max_ge (a b : float) :
  not_nan a = true -> not_nan b = true -> fle a (py_max a b) /\ fle b (py_max a b).
Proof.
  intros Ha Hb. unfold py_max. destruct (a <? b)%float eqn:E.
  - split; [now apply ltb_fle|now apply fle_refl].
  - split; [now apply fle_refl|now apply not_ltb_fle].
Qed.

(** *** Sums of non-negative floats *)

Lemma fle_zero_SF (x : float) : fle 0 x <-> sf_nonneg (Prim2SF x) = true.
Proof.
  unfold fle. rewrite FloatAxioms.leb_spec. change (Prim2SF 0) with (S754_zero false).
  unfold SFleb. destruct (Prim2SF x) as [s|s| |s m e]; simpl; try tauto;
    destruct s; simpl; split; congruence.
Qed.

Lemma shr_1_nonneg (mrs : shr_record) : 0 <= shr_m mrs -> 0 <= shr_m (shr_1 mrs).
Proof.
  destruct mrs as [m r s]. simpl. destruct m as [|p|p]; simpl; try lia.
  - destruct p; simpl; lia.
Qed.

Lemma iter_shr_1_nonneg (p : positive) (mrs : shr_record) :
  0 <= shr_m mrs -> 0 <= shr_m (iter_pos shr_1 p mrs).
Proof.
  revert mrs. induction p as [p IH|p IH|]; simpl; intros mrs H.
  - apply IH, IH. now apply shr_1_nonneg.
  - now apply IH, IH.
  - now apply shr_1_nonneg.
Qed.

Lemma shr_fexp_nonneg (m e : Z) (l : location) :
  0 <= m -> 0 <= shr_m (fst (shr_fexp prec emax m e l)).
Proof.
  intro H. unfold shr_fexp, shr.
  assert (H0 : 0 <= shr_m (shr_record_of_loc m l)).
  { destruct l as [|[]]; simpl; assumption. }
  destruct (fexp prec emax (Zdigits2 m + e) - e) as [|p|p]; simpl; try assumption.
  now apply iter_shr_1_nonneg.
Qed.

Lemma round_nearest_even_nonneg (m : Z) (l : location) :
  0 <= m -> 0 <= round_nearest_even m l.
Proof.
  intro H. destruct l as [|[]]; simpl; try lia. destruct (Z.even m); lia.
Qed.

Lemma binary_round_aux_nonneg (m e : Z) (l : location) :
  0 <= m -> sf_nonneg (binary_round_aux prec emax false m e l) = true.
Proof.
  intro H. unfold binary_round_aux.
  pose proof (shr_fexp_nonneg m e l H) as H1.
  destruct (shr_fexp prec emax m e l) as [mrs' e']. simpl in H1.
  pose proof (shr_fexp_nonneg _ e' loc_Exact
                (round_nearest_even_nonneg _ (loc_of_shr_record mrs') H1)) as H2.
  destruct (shr_fexp prec emax _ e' loc_Exact) as [mrs'' e'']. simpl in H2.
  destruct (shr_m mrs'') as [|p|p]; try reflexivity; [|lia].
  now destruct (e'' <=? emax - prec).
Qed.

Lemma SFadd_nonneg (a b : spec_float) :
  sf_nonneg a = true -> sf_nonneg b = true -> sf_nonneg (SFadd prec emax a b) = true.
Proof.
  destruct a as [sa|sa| |sa ma ea], b as [sb|sb| |sb mb eb]; simpl;
    try discriminate; try (destruct sa; discriminate); try (destruct sb; discriminate);
    try (destruct sa, sb; simpl; congruence); try (destruct sa; simpl; congruence);
    try (destruct sb; simpl; congruence).
  destruct sa, sb; try discriminate. intros _ _.
  unfold cond_Zopp, binary_normalize.
  destruct (_ + _) as [|p|p] eqn:E; try reflexivity; [|lia].
  unfold binary_round.
  destruct (shl_align p (Z.min ea eb) _) as [mz ez].
  now apply binary_round_aux_nonneg.
Qed.

Lemma add_nonneg (a b : float) : fle 0 a -> fle 0 b -> fle 0 (a + b).
Proof.
  rewrite !fle_zero_SF, FloatAxioms.add_spec. apply SFadd_nonneg.
Qed.

Lemma fsum_from_nonneg (l : list float) (acc : float) :
  fle 0 acc -> Forall (fle 0) l -> fle 0 (fold_left PrimFloat.add l acc).
Proof.
  revert acc. induction l as [|x l IH]; simpl; intros acc Hacc Hl; [assumption|].
  inversion Hl; subst. apply IH; [|assumption]. now apply add_nonneg.
Qed.

End FloatFacts.

(** ** Look-up-or-create folds *)

Lemma filter_split {A} (p : A -> bool) (l : list A) :
  Permutation l (filter p l ++ filter (fun x => negb (p x)) l).
Proof.
  induction l as [|x l IH]; simpl; [constructor|].
  destruct (p x); simpl.
  - now constructor.
  - now apply Permutation_cons_app.
Qed.

Lemma filter_filter_and {A} (p q : A -> bool) (l : list A) :
  filter q (filter p l) = filter (fun x => p x && q x) l.
Proof.
  induction l as [|x l IH]; simpl; [reflexivity|].
  destruct (p x); simpl; [|exact IH]. destruct (q x); now rewrite IH.
Qed.

Lemma filter_nil_iff {A} (p : A -> bool) (l : list A) :
  filter p l = [] <-> forall x, In x l -> p x = false.
Proof.
  induction l as [|x l IH]; simpl.
  - tauto.
  - destruct (p x) eqn:E.
    + split; [discriminate|]. intro H. specialize (H x (or_introl eq_refl)). congruence.
    + rewrite IH. split.
      * intros H y [<-|Hy]; auto.
      * intros H y Hy. apply H. now right.
Qed.

Section UpsertFacts.
Context {V : Type}.
Variable key : Rec -> pystr.
Variable init : pystr -> V.
Variable f : V -> Rec -> V.

Lemma get_fold_upsert (rs : list Rec) : forall (d : Dict V) (k : pystr),
  dict_get (fold_left (upsert key init f) rs d) k =
    match dict_get d k, filter (key_is key k) rs with
    | Some v, l => Some (fold_left f l v)
    | None, [] => None
    | None, l => Some (fold_left f l (init k))
    end.
Proof.
  induction rs as [|r rs IH]; intros d k; simpl.
  - now destruct (dict_get d k).
  - rewrite IH. unfold upsert. rewrite dict_get_set.
    change (key_is key k r) with (str_eqb (key r) k).
    destruct (str_eqb (key r) k) eqn:E.
    + apply str_eqb_eq in E. subst k. now destruct (dict_get d (key r)).
    + reflexivity.
Qed.

Lemma NoDup_keys_fold_upsert (rs : list Rec) : forall d : Dict V,
  NoDup (keys d) -> NoDup (keys (fold_left (upsert key init f) rs d)).
Proof.
  induction rs as [|r rs IH]; intros d Hd; simpl; [assumption|].
  apply IH. now apply NoDup_keys_dict_set.
Qed.

(** From the empty dictionary: the entry of [k] is the fold of the records
    with key [k] over a fresh value, and exists if there is such a record. *)
Lemma get_fold_upsert_nil (rs : list Rec) (k : pystr) :
  dict_get (fold_left (upsert key init f) rs []) k =
    match filter (key_is key k) rs with
    | [] => None
    | l => Some (fold_left f l (init k))
    end.
Proof. now rewrite get_fold_upsert. Qed.

Lemma In_fold_upsert_nil (rs : list Rec) (k : pystr) (v : V) :
  In (k, v) (fold_left (upsert key init f) rs []) ->
  filter (key_is key k) rs <> []
  /\ v = fold_left f (filter (key_is key k) rs) (init k).
Proof.
  intro Hin. apply In_dict_get in Hin.
  - rewrite get_fold_upsert_nil in Hin.
    destruct (filter (key_is key k) rs); [discriminate|].
    injection Hin as <-. split; [discriminate|reflexivity].
  - apply NoDup_keys_fold_upsert. constructor.
Qed.

Lemma partition_by_key (ks : list pystr) : forall l : list Rec,
  NoDup ks -> (forall r, In r l -> In (key r) ks) ->
  Permutation l (flat_map (fun k => filter (key_is key k) l) ks).
Proof.
  induction ks as [|k ks IH]; intros l Hnd Hcover; simpl.
  - destruct l as [|r l]; [constructor|]. destruct (Hcover r (or_introl eq_refl)).
  - inversion Hnd as [|? ? Hnotin Hnd']; subst.
    rewrite (filter_split (key_is key k) l) at 1.
    apply Permutation_app_head.
    set (l' := filter (fun r => negb (key_is key k r)) l).
    assert (Hsame : forall k', In k' ks -> filter (key_is key k') l' = filter (key_is key k') l).
    { intros k' Hk'. unfold l'. rewrite filter_filter_and. apply filter_ext.
      intro r. unfold key_is. destruct (str_eqb (key r) k) eqn:E; [|reflexivity].
      apply str_eqb_eq in E. simpl. symmetry. apply str_eqb_neq. congruence. }
    rewrite (IH l' Hnd').
    + rewrite !flat_map_concat_map. now rewrite (map_ext_in _ _ _ Hsame).
    + intros r Hr. unfold l' in Hr. apply filter_In in Hr as [Hr Hk].
      destruct (Hcover r Hr) as [E|H]; [|assumption].
      unfold key_is in Hk. rewrite E, str_eqb_refl in Hk. discriminate.
Qed.

(** The records split, up to order, into the groups of the keys the fold
    created. *)
Lemma fold_upsert_partition (rs : list Rec) :
  Permutation rs
    (flat_map (fun k => filter (key_is key k) rs)
       (keys (fold_left (upsert key init f) rs []))).
Proof.
  apply partition_by_key.
  - apply NoDup_keys_fold_upsert. constructor.
  - intros r Hr.
    destruct (dict_get (fold_left (upsert key init f) rs []) (key r)) eqn:E.
    + apply dict_get_In in E. change (key r) with (fst (key r, v)). now apply in_map.
    + rewrite get_fold_upsert_nil in E.
      destruct (filter (key_is key (key r)) rs) eqn:F; [|discriminate].
      assert (Hf : key_is key (key r) r = false) by (eapply filter_nil_iff; eauto).
      unfold key_is in Hf. now rewrite str_eqb_refl in Hf.
Qed.

End UpsertFacts.

(** ** Nodes and the aggregation *)

Section NodeFacts.
Implicit Types (n m : Node) (r : Rec) (l rs : list Rec).

Lemma stats_fields n m :
  stats n = stats m ->
  name n = name m /\ count n = count m /\ area n = area m /\ bbox n = bbox m
  /\ sum_lng n = sum_lng m /\ sum_lat n = sum_lat m /\ has_center n = has_center m.
Proof. unfold stats. intros [= -> -> -> -> -> -> ->]. repeat split. Qed.

Lemma stats_step n m r : stats n = stats m -> stats (step n r) = stats (step m r).
Proof.
  intro H. apply stats_fields in H as (Hn & Hc & Ha & Hb & Hx & Hy & Hh).
  unfold step, update_node, stats.
  destruct (rec_lat r), (rec_lng r); simpl; now rewrite Hn, Hc, Ha, Hb, Hx, Hy, Hh.
Qed.

Lemma stats_set_regions n d : stats (set_regions n d) = stats n.
Proof. reflexivity. Qed.

Lemma stats_set_places n d : stats (set_places n d) = stats n.
Proof. reflexivity. Qed.

Lemma children_step n r : regions (step n r) = regions n /\ places (step n r) = places n.
Proof. unfold step, update_node. destruct (rec_lat r), (rec_lng r); split; reflexivity. Qed.

(** The aggregation of one record is the nested look-up-or-create. *)
Lemma aggregate_country_step (countries : Dict Node) r :
  aggregate countries r = country_step countries r.
Proof.
  unfold aggregate, country_step, upsert, country_update, region_step, upsert,
    region_update, place_step, upsert, dict_setdefault.
  destruct (dict_get countries (rec_country r)) as [cn|]; simpl;
    [destruct (dict_get (regions cn) (rec_region r)) as [rn|]; simpl;
       [destruct (dict_get (places rn) (rec_place r)) as [pn|]; simpl|]|];
    rewrite ?dict_set_set, ?str_eqb_refl;
    repeat match goal with
      | |- context [regions (step ?x r)] => rewrite (proj1 (children_step x r))
      | |- context [places (step ?x r)] => rewrite (proj2 (children_step x r))
      end; reflexivity.
Qed.

Lemma aggregate_all_fold rs : aggregate_all rs = fold_left country_step rs [].
Proof.
  unfold aggregate_all. generalize (@nil (pystr * Node)).
  induction rs as [|r rs IH]; intro d; simpl; [reflexivity|].
  now rewrite aggregate_country_step, IH.
Qed.

Lemma fold_country_update l : forall n,
  stats (fold_left country_update l n) = stats (fold_updates l n)
  /\ regions (fold_left country_update l n) = fold_left region_step l (regions n)
  /\ places (fold_left country_update l n) = places n.
Proof.
  unfold fold_updates.
  assert (G : forall n m, stats n = stats m ->
              stats (fold_left country_update l n) = stats (fold_left step l m)).
  { induction l as [|r l IH]; intros n m H; simpl; [assumption|].
    apply IH. unfold country_update. rewrite stats_set_regions. now apply stats_step. }
  intro n. split; [now apply G|]. clear G.
  revert n. induction l as [|r l IH]; intro n; simpl; [split; reflexivity|].
  destruct (IH (country_update n r)) as [Hr Hp]. rewrite Hr, Hp. split; [reflexivity|].
  unfold country_update. simpl. apply children_step.
Qed.

Lemma fold_region_update l : forall n,
  stats (fold_left region_update l n) = stats (fold_updates l n)
  /\ places (fold_left region_update l n) = fold_left place_step l (places n).
Proof.
  unfold fold_updates.
  assert (G : forall n m, stats n = stats m ->
              stats (fold_left region_update l n) = stats (fold_left step l m)).
  { induction l as [|r l IH]; intros n m H; simpl; [assumption|].
    apply IH. unfold region_update. rewrite stats_set_places. now apply stats_step. }
  intro n. split; [now apply G|]. clear G.
  revert n. induction l as [|r l IH]; intro n; simpl; [reflexivity|].
  rewrite IH. unfold region_update. simpl. reflexivity.
Qed.

(** *** Fields after a run of updates *)

Lemma count_fold_updates l : forall n,
  count (fold_updates l n) = count n + Z.of_nat (List.length l).
Proof.
  unfold fold_updates. induction l as [|r l IH]; intro n; simpl fold_left.
  - simpl. lia.
  - rewrite IH. unfold step, update_node.
    destruct (rec_lat r), (rec_lng r); simpl count; simpl List.length; lia.
Qed.

Lemma area_fold_updates l : forall n,
  area (fold_updates l n) = fold_left PrimFloat.add (supplied_areas l) (area n).
Proof.
  unfold fold_updates. induction l as [|r l IH]; intro n; simpl; [reflexivity|].
  rewrite IH, fold_left_app. f_equal. unfold step, update_node.
  destruct (rec_lat r), (rec_lng r), (rec_area r); reflexivity.
Qed.

Lemma has_center_fold_updates l : forall n,
  has_center (fold_updates l n)
  = has_center n + Z.of_nat (List.length (filter has_coords l)).
Proof.
  unfold fold_updates. induction l as [|r l IH]; intro n; simpl fold_left.
  - simpl. lia.
  - rewrite IH. unfold step, update_node. simpl filter. unfold has_coords at 2.
    destruct (rec_lat r), (rec_lng r); simpl has_center; simpl List.length; lia.
Qed.

Lemma node_inv_init (nm : pystr) (lv : Level) : node_inv (Node_init nm lv).
Proof. unfold node_inv. simpl. split; [lia|]. split; [congruence|lia]. Qed.

Lemma node_inv_update n (lat lng ar : option float) :
  node_inv n -> node_inv (update_node n lat lng ar).
Proof.
  unfold node_inv, update_node. intros [Hc Hb].
  destruct lat, lng; simpl; (split; [lia|]); try exact Hb.
  split; [lia|congruence].
Qed.

Lemma node_inv_fold_updates l : forall n, node_inv n -> node_inv (fold_updates l n).
Proof.
  unfold fold_updates. induction l as [|r l IH]; intros n H; simpl; [assumption|].
  apply IH. now apply node_inv_update.
Qed.

Lemma node_inv_stats n m : stats n = stats m -> node_inv m -> node_inv n.
Proof.
  intro H. apply stats_fields in H as (_ & Hc & _ & Hb & _ & _ & Hh).
  unfold node_inv. now rewrite Hc, Hb, Hh.
Qed.

(** *** The node at a path after any stream of records *)

Lemma routed_region c g rs :
  routed (PRegion c g) rs = filter (key_is rec_region g) (routed (PCountry c) rs).
Proof. unfold routed. now rewrite filter_filter_and. Qed.

Lemma routed_place c g pl rs :
  routed (PPlace c g pl) rs = filter (key_is rec_place pl) (routed (PRegion c g) rs).
Proof. unfold routed. now rewrite filter_filter_and. Qed.

Lemma country_at rs c :
  dict_get (aggregate_all rs) c =
    match routed (PCountry c) rs with
    | [] => None
    | l => Some (fold_left country_update l (Node_init c Country))
    end.
Proof.
  rewrite aggregate_all_fold.
  exact (get_fold_upsert_nil rec_country (fun k => Node_init k Country) country_update rs c).
Qed.

Lemma regions_at rs c cn :
  dict_get (aggregate_all rs) c = Some cn ->
  regions cn = fold_left region_step (routed (PCountry c) rs) [].
Proof.
  rewrite country_at. destruct (routed (PCountry c) rs) as [|r l] eqn:E; [discriminate|].
  intros [= <-]. apply (fold_country_update (r :: l)).
Qed.

Lemma region_at rs c g :
  node_at (aggregate_all rs) (PRegion c g) =
    match routed (PRegion c g) rs with
    | [] => None
    | l => Some (fold_left region_update l (Node_init g Region))
    end.
Proof.
  simpl node_at. rewrite routed_region.
  destruct (dict_get (aggregate_all rs) c) as [cn|] eqn:E.
  - rewrite (regions_at _ _ _ E).
    exact (get_fold_upsert_nil rec_region (fun k => Node_init k Region) region_update _ g).
  - rewrite country_at in E. now destruct (routed (PCountry c) rs).
Qed.

Lemma places_at rs c g rn :
  node_at (aggregate_all rs) (PRegion c g) = Some rn ->
  places rn = fold_left place_step (routed (PRegion c g) rs) [].
Proof.
  rewrite region_at. destruct (routed (PRegion c g) rs) as [|r l] eqn:E; [discriminate|].
  intros [= <-]. apply (fold_region_update (r :: l)).
Qed.

Lemma place_at rs c g pl :
  node_at (aggregate_all rs) (PPlace c g pl) =
    match routed (PPlace c g pl) rs with
    | [] => None
    | l => Some (fold_updates l (Node_init pl Place))
    end.
Proof.
  rewrite routed_place.
  destruct (node_at (aggregate_all rs) (PRegion c g)) as [rn|] eqn:E.
  - pose proof (places_at _ _ _ _ E) as Hp. simpl in E |- *.
    destruct (dict_get (aggregate_all rs) c); [|discriminate].
    rewrite E, Hp.
    exact (get_fold_upsert_nil rec_place (fun k => Node_init k Place) step _ pl).
  - pose proof E as E'. rewrite region_at in E'.
    destruct (routed (PRegion c g) rs); [|discriminate].
    simpl in E |- *. destruct (dict_get (aggregate_all rs) c); [|reflexivity].
    now rewrite E.
Qed.

(** A node exists exactly when some record names it, and its fields are
    those of a fresh node after the updates of the records that name it. *)
Lemma node_at_aggregate rs (p : Path) :
  match node_at (aggregate_all rs) p with
  | Some n =>
      routed p rs <> []
      /\ stats n = stats (fold_updates (routed p rs) (Node_init (path_name p) (path_level p)))
  | None => routed p rs = []
  end.
Proof.
  destruct p as [c|c g|c g pl].
  - simpl node_at. rewrite country_at.
    destruct (routed (PCountry c) rs) as [|r l] eqn:E; [reflexivity|].
    split; [discriminate|]. apply (fold_country_update (r :: l)).
  - rewrite region_at.
    destruct (routed (PRegion c g) rs) as [|r l] eqn:E; [reflexivity|].
    split; [discriminate|]. apply (fold_region_update (r :: l)).
  - rewrite place_at.
    destruct (routed (PPlace c g pl) rs) as [|r l] eqn:E; [reflexivity|].
    split; [discriminate|reflexivity].
Qed.

Lemma node_at_stats rs p n :
  node_at (aggregate_all rs) p = Some n ->
  routed p rs <> []
  /\ stats n = stats (fold_updates (routed p rs) (Node_init (path_name p) (path_level p))).
Proof. intro H. pose proof (node_at_aggregate rs p) as G. now rewrite H in G. Qed.

Lemma node_at_inv rs p n : node_at (aggregate_all rs) p = Some n -> node_inv n.
Proof.
  intro H. apply node_at_stats in H as [_ Hs].
  eapply node_inv_stats; [exact Hs|]. apply node_inv_fold_updates, node_inv_init.
Qed.

End NodeFacts.

(** ** The tree of a whole stream *)

Section TreeFacts.
Implicit Types (rs : list Rec) (c g pl : pystr) (cn rn pn : Node).

Lemma In_country_at rs c cn :
  In (c, cn) (aggregate_all rs) -> dict_get (aggregate_all rs) c = Some cn.
Proof.
  apply In_dict_get. rewrite aggregate_all_fold.
  apply NoDup_keys_fold_upsert. constructor.
Qed.

Lemma NoDup_regions rs c cn :
  dict_get (aggregate_all rs) c = Some cn -> NoDup (keys (regions cn)).
Proof.
  intro H. rewrite (regions_at _ _ _ H). apply NoDup_keys_fold_upsert. constructor.
Qed.

Lemma In_region_at rs c cn g rn :
  dict_get (aggregate_all rs) c = Some cn -> In (g, rn) (regions cn) ->
  node_at (aggregate_all rs) (PRegion c g) = Some rn.
Proof.
  intros Hc Hin. simpl. rewrite Hc. apply In_dict_get; [|assumption].
  eapply NoDup_regions; eassumption.
Qed.

Lemma NoDup_places rs c g rn :
  node_at (aggregate_all rs) (PRegion c g) = Some rn -> NoDup (keys (places rn)).
Proof.
  intro H. rewrite (places_at _ _ _ _ H). apply NoDup_keys_fold_upsert. constructor.
Qed.

Lemma In_place_at rs c g rn pl pn :
  node_at (aggregate_all rs) (PRegion c g) = Some rn -> In (pl, pn) (places rn) ->
  node_at (aggregate_all rs) (PPlace c g pl) = Some pn.
Proof.
  intros Hg Hin. pose proof (NoDup_places _ _ _ _ Hg) as Hnd.
  simpl in Hg |- *. destruct (dict_get (aggregate_all rs) c); [|discriminate].
  rewrite Hg. now apply In_dict_get.
Qed.

Lemma aggregate_all_wf rs : tree_wf (aggregate_all rs).
Proof.
  split.
  - rewrite aggregate_all_fold. apply NoDup_keys_fold_upsert. constructor.
  - intros c cn Hc. apply In_country_at in Hc. split.
    + eapply NoDup_regions; eassumption.
    + intros g rn Hg. eapply NoDup_places. eapply In_region_at; eassumption.
Qed.

(** The records of a country split into those of its regions, and the
    records of a region into those of its places. *)
Lemma routed_regions_perm rs c cn :
  dict_get (aggregate_all rs) c = Some cn ->
  Permutation (routed (PCountry c) rs)
    (flat_map (fun g => routed (PRegion c g) rs) (keys (regions cn))).
Proof.
  intro H. rewrite (regions_at _ _ _ H).
  erewrite flat_map_ext; [|intro g; apply routed_region].
  apply fold_upsert_partition.
Qed.

Lemma routed_places_perm rs c g rn :
  node_at (aggregate_all rs) (PRegion c g) = Some rn ->
  Permutation (routed (PRegion c g) rs)
    (flat_map (fun pl => routed (PPlace c g pl) rs) (keys (places rn))).
Proof.
  intro H. rewrite (places_at _ _ _ _ H).
  erewrite flat_map_ext; [|intro pl; apply routed_place].
  apply fold_upsert_partition.
Qed.

Lemma node_at_count rs (p : Path) n :
  node_at (aggregate_all rs) p = Some n ->
  count n = Z.of_nat (List.length (routed p rs)).
Proof.
  intro H. apply node_at_stats in H as [_ Hs].
  apply stats_fields in Hs as (_ & Hc & _). rewrite Hc, count_fold_updates. simpl. lia.
Qed.

Lemma node_at_area rs (p : Path) n :
  node_at (aggregate_all rs) p = Some n ->
  area n = fsum (supplied_areas (routed p rs)).
Proof.
  intro H. apply node_at_stats in H as [_ Hs].
  apply stats_fields in Hs as (_ & _ & Ha & _). now rewrite Ha, area_fold_updates.
Qed.

Lemma node_at_has_center rs (p : Path) n :
  node_at (aggregate_all rs) p = Some n ->
  has_center n = Z.of_nat (List.length (filter has_coords (routed p rs))).
Proof.
  intro H. apply node_at_stats in H as [_ Hs].
  apply stats_fields in Hs as (_ & _ & _ & _ & _ & _ & Hh).
  rewrite Hh, has_center_fold_updates. simpl. lia.
Qed.

Lemma bbox_iff_coords rs (p : Path) n :
  node_at (aggregate_all rs) p = Some n ->
  (bbox n <> None <-> exists r, In r (routed p rs) /\ has_coords r = true).
Proof.
  intro H. destruct (node_at_inv _ _ _ H) as [_ Hb].
  rewrite Hb, (node_at_has_center _ _ _ H). split.
  - intro Hpos. destruct (filter has_coords (routed p rs)) as [|r l] eqn:E; [simpl in Hpos; lia|].
    exists r. apply filter_In. rewrite E. now left.
  - intros (r & Hin & Hr).
    assert (Hf : In r (filter has_coords (routed p rs))) by now apply filter_In.
    destruct (filter has_coords (routed p rs)); [destruct Hf|]. simpl. lia.
Qed.

Lemma Zsum_counts (d : Dict Node) (grp : pystr -> list Rec) :
  (forall k n, In (k, n) d -> count n = Z.of_nat (List.length (grp k))) ->
  Zsum (map count (values d)) = Z.of_nat (List.length (flat_map grp (keys d))).
Proof.
  induction d as [|[k n] d IH]; intro H; simpl; [reflexivity|].
  rewrite length_app, Nat2Z.inj_add, (H k n (or_introl eq_refl)).
  f_equal. apply IH. intros k' n' Hin. apply H. now right.
Qed.

End TreeFacts.

(** ** The loop over tiles *)

Section PipelineFacts.
Variable float_of_str : pystr -> option float.
Variable decode_tile : bytes -> option Tile.

Lemma process_features_records (fs : list Feature) : forall countries countries',
  process_features float_of_str fs countries = Ok countries' ->
  exists rs, countries' = fold_left aggregate rs countries.
Proof.
  induction fs as [|f fs IH]; intros cs cs' H; simpl in H.
  - injection H as <-. now exists [].
  - unfold process_feature in H.
    destruct (normalize float_of_str _) as [r|e]; simpl in H; [|discriminate].
    apply IH in H as [rs ->]. now exists (r :: rs).
Qed.

Lemma process_tile_records (raw : bytes) countries countries' :
  process_tile float_of_str decode_tile countries raw = Ok countries' ->
  exists rs, countries' = fold_left aggregate rs countries.
Proof.
  unfold process_tile.
  destruct (decode_tile raw) as [tile|]; [|intros [= <-]; now exists []].
  destruct (dict_get tile LAYER_NAME) as [layer|]; [|intros [= <-]; now exists []].
  apply process_features_records.
Qed.

Lemma process_tiles_records (tiles : list (TileId * bytes)) : forall countries countries',
  process_tiles float_of_str decode_tile tiles countries = Ok countries' ->
  exists rs, countries' = fold_left aggregate rs countries.
Proof.
  induction tiles as [|[id raw] tiles IH]; intros cs cs' H; simpl in H.
  - injection H as <-. now exists [].
  - destruct (process_tile float_of_str decode_tile cs raw) as [c1|e] eqn:E;
      simpl in H; [|discriminate].
    apply process_tile_records in E as [rs1 ->].
    apply IH in H as [rs2 ->]. exists (rs1 ++ rs2). now rewrite fold_left_app.
Qed.

Lemma process_tiles_app (t1 t2 : list (TileId * bytes)) countries :
  process_tiles float_of_str decode_tile (t1 ++ t2) countries
  = bind (process_tiles float_of_str decode_tile t1 countries)
      (process_tiles float_of_str decode_tile t2).
Proof.
  revert countries. induction t1 as [|[id raw] t1 IH]; intro cs; simpl; [reflexivity|].
  destruct (process_tile float_of_str decode_tile cs raw); simpl; [apply IH|reflexivity].
Qed.

(** A run that ends normally has folded some stream of records. *)
Lemma build_filters_document (tiles : list (TileId * bytes)) (doc : json) :
  build_filters float_of_str decode_tile tiles = Ok doc ->
  exists rs, doc = document (aggregate_all rs).
Proof.
  unfold build_filters.
  destruct (process_tiles float_of_str decode_tile tiles []) as [cs|e] eqn:E;
    simpl; [|discriminate].
  intros [= <-]. apply process_tiles_records in E as [rs ->]. now exists rs.
Qed.

End PipelineFacts.

(** ** Runs on the sample data *)

Section Runs.

(** [round(x, 6)] on a few floats: a value below a tie, an exact tie (to even),
    a value that rounds to zero and keeps its sign, and the special values. *)
Example round6_examples :
  round6 0.1234565%float = 0.123456%float
  /\ round6 0.0000025%float = 0.000003%float
  /\ round6 (0.125 / 131072)%float = 0.000001%float
  /\ round6 123456789.123456789%float = 123456789.123457%float
  /\ round6 (-1e-9)%float = (-0)%float
  /\ round6 infinity = infinity
  /\ round6 nan = nan.
Proof. repeat split; vm_compute; reflexivity. Qed.

Example sample_float_of_str_examples :
  sample_float_of_str (str " -2.25e3 ") = Some (-2250)%float
  /\ sample_float_of_str (str "0.1") = Some 0.1%float
  /\ sample_float_of_str (str "1e400") = Some infinity
  /\ sample_float_of_str (str "abc") = None
  /\ sample_float_of_str (str "") = None.
Proof. repeat split; vm_compute; reflexivity. Qed.

(** The scenario of the specification: the tile with the feature of Maipú, a
    payload that does not decode, and the tile with the feature of Santiago. *)
Example scenario :
  exists doc,
    build_filters sample_float_of_str sample_decode sample_tiles = Ok doc
    /\ obj_path doc [str "countries"; str "Chile"; str "count"] = Some (JInt 2)
    /\ obj_path doc [str "countries"; str "Chile"; str "area"] = Some (JFloat 170)
    /\ obj_path doc [str "countries"; str "Chile"; str "regions"; str "RM"; str "count"]
       = Some (JInt 2)
    /\ obj_path doc [str "countries"; str "Chile"; str "regions"; str "RM"; str "bbox"]
       = Some (JList [ JFloat (-70.7); JFloat (-33.5); JFloat (-70.7); JFloat (-33.5) ])
    /\ obj_path doc [str "countries"; str "Chile"; str "regions"; str "RM"; str "center"]
       = Some (JList [ JFloat (-70.7); JFloat (-33.5) ])
    /\ obj_path doc [str "countries"; str "Chile"; str "regions"; str "RM"; str "places";
                     Maipu; str "count"] = Some (JInt 1)
    /\ obj_path doc [str "countries"; str "Chile"; str "regions"; str "RM"; str "places";
                     str "Santiago"; str "count"] = Some (JInt 1)
    /\ obj_path doc [str "countries"; str "Chile"; str "regions"; str "RM"; str "places";
                     str "Santiago"; str "bbox"] = None
    /\ obj_path doc [str "countries"; str "Chile"; str "regions"; str "RM"; str "places";
                     str "Santiago"; str "center"] = None.
Proof. eexists. split; [vm_compute; reflexivity|]. repeat split. Qed.

End Runs.

(** * The claims *)

(** ** C1: the update of one node *)

(** C1, the claim as stated fails for coordinates that are NaN.  A feature
    whose latitude and longitude are NaN is normalised with both coordinates
    present, and a fresh node it is folded into gets the bbox of four NaN; the
    feature at latitude 1.0 and longitude 2.0 folded next leaves every bound
    NaN (no float is below or above NaN), so the bbox does not include its
    point. *)
Lemma nan_bbox_excludes_point :
  exists r1 r2 b,
    normalize sample_float_of_str nan_props = Ok r1
    /\ has_coords r1 = true
    /\ normalize sample_float_of_str point_props = Ok r2
    /\ rec_lat r2 = Some 1%float /\ rec_lng r2 = Some 2%float
    /\ bbox (update_node
               (update_node (Node_init (rec_place r1) Place)
                  (rec_lat r1) (rec_lng r1) (rec_area r1))
               (rec_lat r2) (rec_lng r2) (rec_area r2)) = Some b
    /\ ~ bbox_contains b 2%float 1%float.
Proof.
  do 3 eexists. do 5 (split; [reflexivity|]). split; [reflexivity|].
  intros [H _]. vm_compute in H. discriminate.
Qed.

(** C1, amended.  One [update_node] call adds 1 to [count] whatever the record
    holds; adds the area to the running sum when the record has one and leaves
    the sum alone otherwise; and, when both coordinates are present, sets the
    bbox to the point (first pair) or to the componentwise [min]/[max] with the
    point, adds the coordinates to the centroid sums and adds 1 to
    [has_center], while with a coordinate missing the bbox, both sums and
    [has_center] keep their values.  When neither coordinate and no bound of
    the old bbox is NaN, the new bbox contains the point and covers the old
    bbox. *)
Theorem update_node_spec (node : Node) (lat lng ar : option float) :
  let node' := update_node node lat lng ar in
  count node' = count node + 1
  /\ area node' = match ar with
                  | Some a => (area node + a)%float
                  | None => area node
                  end
  /\ name node' = name node
  /\ regions node' = regions node
  /\ places node' = places node
  /\ match lat, lng with
     | Some la, Some ln =>
         bbox node' = Some match bbox node with
                           | None => mkBBox ln la ln la
                           | Some b => mkBBox (py_min (min_lng b) ln) (py_min (min_lat b) la)
                                         (py_max (max_lng b) ln) (py_max (max_lat b) la)
                           end
         /\ sum_lng node' = (sum_lng node + ln)%float
         /\ sum_lat node' = (sum_lat node + la)%float
         /\ has_center node' = has_center node + 1
         /\ (not_nan la = true -> not_nan ln = true ->
             (forall b, bbox node = Some b -> bbox_not_nan b = true) ->
             exists b', bbox node' = Some b'
                        /\ bbox_not_nan b' = true
                        /\ bbox_contains b' ln la
                        /\ forall b, bbox node = Some b -> bbox_covers b' b)
     | _, _ =>
         bbox node' = bbox node
         /\ sum_lng node' = sum_lng node
         /\ sum_lat node' = sum_lat node
         /\ has_center node' = has_center node
     end.
Proof.
  unfold update_node.
  destruct lat as [la|], lng as [ln|]; simpl; repeat (split; [reflexivity|]);
    try (repeat split; reflexivity).
  intros Hla Hln Hb. eexists. split; [reflexivity|].
  destruct (bbox node) as [b|].
  - specialize (Hb b eq_refl). unfold bbox_not_nan in Hb.
    apply andb_true_iff in Hb as [Hb H4]. apply andb_true_iff in Hb as [Hb H3].
    apply andb_true_iff in Hb as [H1 H2].
    destruct (py_min_le _ _ H1 Hln) as [A1 A2]. destruct (py_min_le _ _ H2 Hla) as [B1 B2].
    destruct (py_max_ge _ _ H3 Hln) as [C1 C2]. destruct (py_max_ge _ _ H4 Hla) as [D1 D2].
    split; [|split].
    + unfold bbox_not_nan. simpl.
      now rewrite !py_min_not_nan, !py_max_not_nan.
    + unfold bbox_contains. simpl. auto.
    + intros b0 [= <-]. unfold bbox_covers. simpl. auto.
  - split; [|split].
    + unfold bbox_not_nan. simpl. now rewrite Hla, Hln.
    + unfold bbox_contains. simpl. auto using fle_refl.
    + intros b0 [=].
Qed.

(** The update of [sample_node] with the point (lng 10.25, lat -40) widens its
    bbox around both points. *)
Lemma update_node_spec_witness :
  exists b', bbox (update_node sample_node (Some (-40)%float) (Some 10.25%float) None) = Some b'
             /\ bbox_not_nan b' = true
             /\ bbox_contains b' 10.25%float (-40)%float
             /\ forall b, bbox sample_node = Some b -> bbox_covers b' b.
Proof.
  destruct (update_node_spec sample_node (Some (-40)%float) (Some 10.25%float) None)
    as (_ & _ & _ & _ & _ & _ & _ & _ & _ & H).
  apply H; try reflexivity.
  intros b [= <-]. reflexivity.
Defined.

(** ** C7: the invariant of every node *)

(** C7.  A fresh node satisfies the invariant ([count >= has_center >= 0], and
    a bbox exactly when [has_center > 0]); every [update_node] call keeps it, so
    it holds between the three updates of one record as well; and it holds of
    every country, region and place node after any stream of records, that is
    at every point of the fold and at its end.  The bbox of a node is absent
    until a record that names the node carries both coordinates. *)
Theorem node_invariant :
  (forall nm lv, node_inv (Node_init nm lv))
  /\ (forall node lat lng ar, node_inv node -> node_inv (update_node node lat lng ar))
  /\ (forall rs p node,
        node_at (aggregate_all rs) p = Some node ->
        has_center node <= count node
        /\ (bbox node <> None <-> 0 < has_center node)
        /\ (bbox node <> None <-> exists r, In r (routed p rs) /\ has_coords r = true)).
Proof.
  split; [exact node_inv_init|]. split; [exact node_inv_update|].
  intros rs p node H. destruct (node_at_inv _ _ _ H) as [Hc Hb].
  split; [lia|]. split; [exact Hb|]. now apply bbox_iff_coords.
Qed.

(** The region node of the scenario: two records, one pair of coordinates and
    a bbox. *)
Lemma node_invariant_witness :
  exists node, node_at (aggregate_all sample_records) (PRegion (str "Chile") (str "RM")) = Some node
               /\ has_center node <= count node
               /\ (bbox node <> None <-> 0 < has_center node).
Proof.
  eexists. split; [reflexivity|].
  destruct (proj2 (proj2 node_invariant) sample_records (PRegion (str "Chile") (str "RM")) _
              eq_refl) as (H1 & H2 & _).
  exact (conj H1 H2).
Defined.

(** ** C2: additivity *)

Lemma supplied_areas_flat_map (grp : pystr -> list Rec) (ks : list pystr) :
  supplied_areas (flat_map grp ks) = flat_map (fun k => supplied_areas (grp k)) ks.
Proof.
  unfold supplied_areas. induction ks as [|k ks IH]; simpl; [reflexivity|].
  now rewrite flat_map_app, IH.
Qed.

Lemma supplied_areas_perm (l l' : list Rec) :
  Permutation l l' -> Permutation (supplied_areas l) (supplied_areas l').
Proof. intro H. unfold supplied_areas. now apply Permutation_flat_map. Qed.

(** C2, the claim as stated fails for the areas.  Three records of one country
    with areas 0.1, 0.2, 0.3, the first in region A and the others in region B:
    the counts add up, but the country's area is (0.1 + 0.2) + 0.3 while the
    areas of its regions are 0.1 and 0.2 + 0.3, whose sum is another float in
    either order. *)
Lemma area_not_additive :
  exists cn, dict_get (aggregate_all tenths_records) (str "C") = Some cn
             /\ count cn = Zsum (map count (values (regions cn)))
             /\ area cn <> fsum (map area (values (regions cn)))
             /\ area cn <> fsum (rev (map area (values (regions cn)))).
Proof.
  eexists. split; [reflexivity|]. split; [reflexivity|].
  split; intro H; apply (f_equal Prim2SF) in H; vm_compute in H; discriminate.
Qed.

(** C2, amended.  After any stream of records, the count of every country node
    is the sum of the counts of its region nodes and the count of every region
    node is the sum of the counts of its place nodes.  The area of a node is the
    floating point sum, in stream order, of the areas of the records that name
    it, and the areas summed into a country (region) are, up to order, those
    summed into its regions (places): the area of a parent is the sum of the
    areas of its children up to the order of the additions. *)
Theorem additivity (rs : list Rec) (c : pystr) (cn : Node) :
  dict_get (aggregate_all rs) c = Some cn ->
  count cn = Zsum (map count (values (regions cn)))
  /\ (forall g rn, In (g, rn) (regions cn) ->
       count rn = Zsum (map count (values (places rn))))
  /\ area cn = fsum (supplied_areas (routed (PCountry c) rs))
  /\ Permutation (supplied_areas (routed (PCountry c) rs))
       (flat_map (fun g => supplied_areas (routed (PRegion c g) rs)) (keys (regions cn)))
  /\ (forall g rn, In (g, rn) (regions cn) ->
       area rn = fsum (supplied_areas (routed (PRegion c g) rs))
       /\ Permutation (supplied_areas (routed (PRegion c g) rs))
            (flat_map (fun pl => supplied_areas (routed (PPlace c g pl) rs))
               (keys (places rn)))
       /\ forall pl pn, In (pl, pn) (places rn) ->
            area pn = fsum (supplied_areas (routed (PPlace c g pl) rs))).
Proof.
  intro Hc.
  assert (Hregion : forall g rn, In (g, rn) (regions cn) ->
            node_at (aggregate_all rs) (PRegion c g) = Some rn).
  { intros g rn. now apply In_region_at. }
  repeat split.
  - rewrite (node_at_count rs (PCountry c) cn Hc).
    rewrite (Permutation_length (routed_regions_perm _ _ _ Hc)).
    symmetry. apply Zsum_counts. intros g rn Hin. now apply node_at_count, Hregion.
  - intros g rn Hin. pose proof (Hregion g rn Hin) as Hg.
    rewrite (node_at_count rs (PRegion c g) rn Hg).
    rewrite (Permutation_length (routed_places_perm _ _ _ _ Hg)).
    symmetry. apply Zsum_counts. intros pl pn Hpl.
    now apply node_at_count, (In_place_at rs c g rn).
  - now apply (node_at_area rs (PCountry c)).
  - rewrite <- supplied_areas_flat_map. apply supplied_areas_perm.
    now apply routed_regions_perm.
  - now apply (node_at_area rs (PRegion c g)), Hregion.
  - rewrite <- supplied_areas_flat_map. apply supplied_areas_perm.
    now apply routed_places_perm, Hregion.
  - intros pl pn Hpl. apply (node_at_area rs (PPlace c g pl)).
    eapply In_place_at; [apply Hregion|]; eassumption.
Qed.

(** The country of the scenario: two records, one region with two places. *)
Lemma additivity_witness :
  exists cn, dict_get (aggregate_all sample_records) (str "Chile") = Some cn
             /\ count cn = Zsum (map count (values (regions cn)))
             /\ area cn = fsum (supplied_areas (routed (PCountry (str "Chile")) sample_records)).
Proof.
  eexists. split; [reflexivity|].
  pose proof (additivity sample_records (str "Chile") _ eq_refl) as (H1 & _ & H3 & _).
  exact (conj H1 H3).
Defined.

(** ** C6: the area of a node *)

(** C6, the claim as stated fails: a record whose area is -1.0 leaves its
    country node with a negative area. *)
Lemma negative_area :
  exists node, node_at (aggregate_all negative_area_records) (PCountry (str "C")) = Some node
               /\ (0 <=? area node)%float = false.
Proof. eexists. split; reflexivity. Qed.

(** C6, amended.  After any stream of records the area of every node is the
    floating point sum, from 0.0 and in stream order, of the areas supplied by
    the records that name the node; it is at least 0 when each of these areas
    is at least 0. *)
Theorem area_is_sum (rs : list Rec) (p : Path) (node : Node) :
  node_at (aggregate_all rs) p = Some node ->
  area node = fsum (supplied_areas (routed p rs))
  /\ (Forall (fle 0) (supplied_areas (routed p rs)) -> fle 0 (area node)).
Proof.
  intro H. pose proof (node_at_area _ _ _ H) as Ha. split; [exact Ha|].
  intro Hpos. rewrite Ha. apply fsum_from_nonneg; [reflexivity|assumption].
Qed.

(** The region of the scenario holds 120.0 + 50.0. *)
Lemma area_is_sum_witness :
  exists node, node_at (aggregate_all sample_records) (PRegion (str "Chile") (str "RM")) = Some node
               /\ area node = 170%float
               /\ fle 0 (area node).
Proof.
  eexists. split; [reflexivity|].
  destruct (area_is_sum sample_records (PRegion (str "Chile") (str "RM")) _ eq_refl)
    as [Ha Hpos].
  split; [exact Ha|]. apply Hpos. repeat constructor.
Defined.

(** ** C3: a feature without a region *)

Lemma name_field_no_name (v : option PyVal) (fallback : pystr) :
  no_name v -> name_field v fallback = Ok fallback.
Proof.
  unfold name_field, py_or. intros [H|(s & -> & Hs)].
  - rewrite H. reflexivity.
  - destruct (truthy_opt (Some (VStr s))); simpl; [now rewrite Hs|reflexivity].
Qed.

Lemma count_step (n : Node) (r : Rec) : count (step n r) = count n + 1.
Proof. unfold step, update_node. now destruct (rec_lat r), (rec_lng r). Qed.

(** C3, the claim as stated fails.  A feature that names only its country,
    folded into the tree of the scenario, adds 1 to the count of the country and
    adds a region to it: the fallback region. *)
Lemma fallback_region_created :
  exists cs cn0 cn1,
    process_feature sample_float_of_str (aggregate_all sample_records)
      (mkFeature (Some country_only_props)) = Ok cs
    /\ dict_get (aggregate_all sample_records) (str "Chile") = Some cn0
    /\ dict_get cs (str "Chile") = Some cn1
    /\ count cn1 = count cn0 + 1
    /\ keys (regions cn0) = [ str "RM" ]
    /\ keys (regions cn1) = [ str "RM"; Sin_region ].
Proof. do 3 eexists. repeat split; reflexivity. Qed.

(** C3, amended.  For a feature that supplies no region (the [region] and
    [district] properties are missing, falsy or blank) the record is filed
    under the fallback region [Sin región]: folding it adds 1 to the count of
    its country node and to the count of the fallback region node of that
    country, either node being created when it does not exist yet. *)
Theorem missing_region_falls_back (float_of_str : pystr -> option float)
    (props : Props) (countries : Dict Node) (r : Rec) :
  no_name (py_or (dict_get props (str "region")) (dict_get props (str "district"))) ->
  normalize float_of_str props = Ok r ->
  rec_region r = Sin_region
  /\ exists cn' rn',
       dict_get (aggregate countries r) (rec_country r) = Some cn'
       /\ count cn' = match dict_get countries (rec_country r) with
                      | Some cn => count cn + 1
                      | None => 1
                      end
       /\ dict_get (regions cn') Sin_region = Some rn'
       /\ count rn' = match node_at countries (PRegion (rec_country r) Sin_region) with
                      | Some rn => count rn + 1
                      | None => 1
                      end.
Proof.
  intros Hno Hnorm.
  assert (Hr : rec_region r = Sin_region).
  { unfold normalize in Hnorm. rewrite (name_field_no_name _ Sin_region Hno) in Hnorm.
    destruct (name_field (dict_get props (str "country")) Sin_pais); simpl in Hnorm;
      [|discriminate].
    destruct (name_field _ Sin_lugar); simpl in Hnorm; [|discriminate].
    destruct (to_float float_of_str _); simpl in Hnorm; [|discriminate].
    destruct (to_float float_of_str _); simpl in Hnorm; [|discriminate].
    destruct (to_float float_of_str _); simpl in Hnorm; [|discriminate].
    now injection Hnorm as <-. }
  split; [exact Hr|].
  rewrite aggregate_country_step. unfold country_step, upsert.
  rewrite dict_get_set_same. do 2 eexists. split; [reflexivity|].
  unfold country_update at 1. simpl count. rewrite count_step. split.
  - now destruct (dict_get countries (rec_country r)).
  - unfold country_update. simpl regions. unfold region_step, upsert.
    rewrite Hr, dict_get_set_same. split; [reflexivity|].
    unfold region_update. simpl count. rewrite count_step. simpl node_at.
    destruct (dict_get countries (rec_country r)) as [cn|]; simpl.
    + now destruct (dict_get (regions cn) Sin_region).
    + reflexivity.
Qed.

(** The feature that names only its country, folded into the empty tree. *)
Lemma missing_region_falls_back_witness :
  exists r cn' rn',
    normalize sample_float_of_str country_only_props = Ok r
    /\ rec_region r = Sin_region
    /\ dict_get (aggregate [] r) (rec_country r) = Some cn'
    /\ count cn' = 1
    /\ dict_get (regions cn') Sin_region = Some rn'
    /\ count rn' = 1.
Proof.
  eexists.
  destruct (missing_region_falls_back sample_float_of_str country_only_props []
              (mkRec (str "Chile") Sin_region Sin_lugar None None None))
    as (Hr & cn' & rn' & H1 & H2 & H3 & H4).
  - left. reflexivity.
  - reflexivity.
  - exists cn', rn'. split; [reflexivity|]. split; [exact Hr|].
    repeat split; assumption.
Defined.

(** ** C4: names that are not text *)

(** C4, on the code.  A feature whose [country] property is the number 42:
    [(42 or "").strip()] raises [AttributeError], so the normaliser produces no
    record, and the exception leaves the loop over features and
    [build_filters]. *)
Theorem numeric_name_raises (float_of_str : pystr -> option float) :
  normalize float_of_str numeric_name_props = Raise AttributeError
  /\ (forall countries,
        process_feature float_of_str countries (mkFeature (Some numeric_name_props))
        = Raise AttributeError)
  /\ build_filters float_of_str (fun _ => Some numeric_name_tile) [ ((0, 0, 0), []) ]
     = Raise AttributeError.
Proof. repeat split. Qed.

(** ** C5: the first candidate key of a number *)

(** C5, on the code.  With [centroid_lat] present and equal to 0.0 the later
    key [lat] is consulted: its value 45.0 is taken when it is present, and the
    latitude is recorded as absent when it is not, although 0.0 is a number. *)
Theorem zero_latitude_skipped (float_of_str : pystr -> option float) :
  (exists r, normalize float_of_str zero_lat_two_keys_props = Ok r
             /\ rec_lat r = Some 45%float
             /\ rec_lng r = Some 10%float)
  /\ (exists r, normalize float_of_str zero_lat_props = Ok r
                /\ rec_lat r = None
                /\ rec_lng r = Some 10%float
                /\ has_coords r = false).
Proof. split; eexists; repeat split. Qed.

(** ** The entries of a serialised node *)

Section SerializeFacts.

Lemma sorted_perm_unique {V} (l1 : list (pystr * V)) : forall l2,
  StronglySorted str_lt (keys l1) -> StronglySorted str_lt (keys l2) ->
  Permutation l1 l2 -> l1 = l2.
Proof.
  induction l1 as [|x l1 IH]; intros l2 H1 H2 Hp.
  - apply Permutation_nil in Hp. now subst.
  - destruct l2 as [|y l2]; [apply Permutation_sym, Permutation_nil in Hp; discriminate|].
    simpl in H1, H2. apply StronglySorted_inv in H1 as [H1 F1].
    apply StronglySorted_inv in H2 as [H2 F2].
    assert (Hxy : x = y).
    { assert (Hx : In x (y :: l2)) by (eapply Permutation_in; [exact Hp|now left]).
      assert (Hy : In y (x :: l1))
        by (eapply Permutation_in; [apply Permutation_sym; exact Hp|now left]).
      destruct Hx as [->|Hx]; [reflexivity|]. destruct Hy as [->|Hy]; [reflexivity|].
      rewrite Forall_forall in F1, F2.
      pose proof (F1 (fst y) (in_map fst _ _ Hy)) as A.
      pose proof (F2 (fst x) (in_map fst _ _ Hx)) as B.
      apply str_ltb_asym in A. unfold str_lt in B. congruence. }
    subst y. f_equal. apply IH; try assumption.
    now apply Permutation_cons_inv in Hp.
Qed.

(** The sorted items do not depend on the order of insertion. *)
Lemma sorted_items_order_free {V} (d d' : Dict V) :
  NoDup (keys d) -> Permutation d d' -> sorted_items d = sorted_items d'.
Proof.
  intros Hnd Hp.
  assert (Hnd' : NoDup (keys d')).
  { eapply Permutation_NoDup; [|exact Hnd]. now apply Permutation_map. }
  apply sorted_perm_unique; try now apply sorted_items_ascending.
  rewrite <- (sorted_items_perm d), <- (sorted_items_perm d'). exact Hp.
Qed.

Lemma keys_serialize_children (f : Node -> json) (d : Dict Node) :
  keys (obj_items (serialize_children f d)) = keys (sorted_items d).
Proof.
  unfold serialize_children, keys. simpl. rewrite map_map.
  apply map_ext. now intros [nm child].
Qed.

Lemma In_serialize_children (f : Node -> json) (d : Dict Node) (k : pystr) (j : json) :
  In (k, j) (obj_items (serialize_children f d)) ->
  exists child, In (k, child) d /\ j = f child.
Proof.
  unfold serialize_children. simpl. rewrite in_map_iff.
  intros ([nm child] & [= -> <-] & Hin). exists child. split; [|reflexivity].
  eapply Permutation_in; [apply Permutation_sym, sorted_items_perm|exact Hin].
Qed.

Lemma get_regions (node : Node) :
  obj_get (serialize node Country) (str "regions")
  = Some (serialize_children serialize_region (regions node)).
Proof.
  unfold serialize, serialize_country, node_fields.
  destruct (bbox node), (has_center node =? 0); reflexivity.
Qed.

Lemma get_places (node : Node) :
  obj_get (serialize node Region) (str "places")
  = Some (serialize_children serialize_place (places node)).
Proof.
  unfold serialize, serialize_region, node_fields.
  destruct (bbox node), (has_center node =? 0); reflexivity.
Qed.

Lemma get_center (node : Node) (lv : Level) :
  obj_get (serialize node lv) (str "center")
  = if has_center node =? 0 then None
    else Some (JList [ JFloat (round6 (div_int (sum_lng node) (has_center node)));
                       JFloat (round6 (div_int (sum_lat node) (has_center node))) ]).
Proof.
  unfold serialize, serialize_country, serialize_region, serialize_place, node_fields.
  destruct lv, (bbox node), (has_center node =? 0); reflexivity.
Qed.

Lemma get_bbox (node : Node) (lv : Level) :
  obj_get (serialize node lv) (str "bbox")
  = match bbox node with
    | Some b => Some (JList [ JFloat (round6 (min_lng b)); JFloat (round6 (min_lat b));
                              JFloat (round6 (max_lng b)); JFloat (round6 (max_lat b)) ])
    | None => None
    end.
Proof.
  unfold serialize, serialize_country, serialize_region, serialize_place, node_fields.
  destruct lv, (bbox node), (has_center node =? 0); reflexivity.
Qed.

Lemma document_keys_ascending (countries : Dict Node) :
  tree_wf countries ->
  exists cs, obj_get (document countries) (str "countries") = Some (JObj cs)
    /\ ascending (keys cs)
    /\ forall c cdoc, In (c, cdoc) cs ->
         exists gs, obj_get cdoc (str "regions") = Some (JObj gs)
           /\ ascending (keys gs)
           /\ forall g gdoc, In (g, gdoc) gs ->
                exists ps, obj_get gdoc (str "places") = Some (JObj ps)
                  /\ ascending (keys ps).
Proof.
  intros [Hc Hwf]. eexists. split; [reflexivity|]. split.
  - rewrite (keys_serialize_children _ countries : keys (map _ _) = _).
    now apply sorted_items_ascending.
  - intros c cdoc Hin.
    apply (In_serialize_children (fun n => serialize n Country)) in Hin
      as (cn & Hcn & ->).
    destruct (Hwf c cn Hcn) as [Hg Hwf']. rewrite get_regions.
    eexists. split; [reflexivity|]. split.
    + rewrite (keys_serialize_children _ (regions cn) : keys (map _ _) = _).
      now apply sorted_items_ascending.
    + intros g gdoc Hgin.
      apply (In_serialize_children serialize_region) in Hgin as (rn & Hrn & ->).
      rewrite (get_places rn : obj_get (serialize_region rn) _ = _).
      eexists. split; [reflexivity|].
      rewrite (keys_serialize_children _ (places rn) : keys (map _ _) = _).
      apply sorted_items_ascending. now apply (Hwf' g rn).
Qed.

End SerializeFacts.

(** ** C9: a tile that fails to decode *)

(** C9.  A tile whose payload fails to decompress or decode leaves the tree as
    it is and raises nothing, and the loop goes on with the next tile: the
    result of [build_filters] over an archive with such a tile, be it a
    document or an exception raised for another tile, is the result over the
    archive without it. *)
Theorem corrupt_tile_skipped (float_of_str : pystr -> option float)
    (decode_tile : bytes -> option Tile) (pre post : list (TileId * bytes))
    (id : TileId) (bad : bytes) :
  decode_tile bad = None ->
  (forall countries, process_tile float_of_str decode_tile countries bad = Ok countries)
  /\ build_filters float_of_str decode_tile (pre ++ (id, bad) :: post)
     = build_filters float_of_str decode_tile (pre ++ post).
Proof.
  intro Hbad.
  assert (Hskip : forall cs, process_tile float_of_str decode_tile cs bad = Ok cs).
  { intro cs. unfold process_tile. now rewrite Hbad. }
  split; [exact Hskip|].
  unfold build_filters. rewrite !process_tiles_app.
  destruct (process_tiles float_of_str decode_tile pre []) as [cs|e]; simpl; [|reflexivity].
  now rewrite Hskip.
Qed.

(** The sample archive: its second payload does not decode. *)
Lemma corrupt_tile_skipped_witness :
  build_filters sample_float_of_str sample_decode sample_tiles
  = build_filters sample_float_of_str sample_decode
      [ ((0, 0, 0), [ Byte.x01 ]); ((1, 1, 0), [ Byte.x02 ]) ].
Proof.
  exact (proj2 (corrupt_tile_skipped sample_float_of_str sample_decode
                  [ ((0, 0, 0), [ Byte.x01 ]) ] [ ((1, 1, 0), [ Byte.x02 ]) ]
                  (1, 0, 0) [ Byte.xff; Byte.x00 ] eq_refl)).
Defined.

(** * Further properties of the code *)

(** ** Order of floats *)

Lemma SFleb_trans (a b c : spec_float) :
  SFleb a b = true -> SFleb b c = true -> SFleb a c = true.
Proof.
  unfold SFleb, SFcompare.
  destruct a as [sa|sa| |sa ma ea], b as [sb|sb| |sb mb eb], c as [sc|sc| |sc mc ec];
    try discriminate; try reflexivity;
    try (destruct sa; try discriminate; try reflexivity);
    try (destruct sb; try discriminate; try reflexivity);
    try (destruct sc; try discriminate; try reflexivity).
  all: change (Pos.compare_cont Eq ma mb) with (ma ?= mb)%positive;
       change (Pos.compare_cont Eq mb mc) with (mb ?= mc)%positive;
       change (Pos.compare_cont Eq ma mc) with (ma ?= mc)%positive.
  all: destruct (Z.compare_spec ea eb), (Z.compare_spec eb ec), (Z.compare_spec ea ec);
       try lia; try discriminate; try reflexivity;
       destruct (Pos.compare_spec ma mb), (Pos.compare_spec mb mc), (Pos.compare_spec ma mc);
       simpl; try lia; try discriminate; try reflexivity.
Qed.

Lemma fle_trans (a b c : float) : fle a b -> fle b c -> fle a c.
Proof. unfold fle. rewrite !FloatAxioms.leb_spec. apply SFleb_trans. Qed.

(** ** The fields of a node, read off the records that name it *)

Section FieldFacts.
Implicit Types (n m : Node) (r : Rec) (l rs : list Rec) (pts : list (float * float)).

Lemma flat_map_groups {A B} (h : A -> list B) (grp : pystr -> list A) (ks : list pystr) :
  flat_map h (flat_map grp ks) = flat_map (fun k => flat_map h (grp k)) ks.
Proof.
  induction ks as [|k ks IH]; simpl; [reflexivity|]. now rewrite flat_map_app, IH.
Qed.

Lemma coords_app l l' : coords (l ++ l') = coords l ++ coords l'.
Proof. apply flat_map_app. Qed.

Lemma coords_length l : List.length (coords l) = List.length (filter has_coords l).
Proof.
  induction l as [|r l IH]; simpl; [reflexivity|]. unfold has_coords at 1.
  destruct (rec_lat r), (rec_lng r); simpl; now rewrite ?IH.
Qed.

Lemma sums_fold_updates l : forall n,
  sum_lng (fold_updates l n) = fold_left PrimFloat.add (map fst (coords l)) (sum_lng n)
  /\ sum_lat (fold_updates l n) = fold_left PrimFloat.add (map snd (coords l)) (sum_lat n).
Proof.
  unfold fold_updates. induction l as [|r l IH]; intro n; simpl; [split; reflexivity|].
  destruct (IH (step n r)) as [Hx Hy]. rewrite Hx, Hy, !map_app, !fold_left_app.
  unfold step, update_node. destruct (rec_lat r), (rec_lng r); split; reflexivity.
Qed.

Lemma name_fold_updates l : forall n, name (fold_updates l n) = name n.
Proof.
  unfold fold_updates. induction l as [|r l IH]; intro n; simpl; [reflexivity|].
  rewrite IH. unfold step, update_node. now destruct (rec_lat r), (rec_lng r).
Qed.

Lemma children_fold_updates l : forall n,
  regions (fold_updates l n) = regions n /\ places (fold_updates l n) = places n.
Proof.
  unfold fold_updates. induction l as [|r l IH]; intro n; simpl; [split; reflexivity|].
  destruct (IH (step n r)) as [Hr Hp]. rewrite Hr, Hp. apply children_step.
Qed.

Lemma regions_fold_region_update l : forall n,
  regions (fold_left region_update l n) = regions n.
Proof.
  induction l as [|r l IH]; intro n; simpl; [reflexivity|].
  rewrite IH. unfold region_update. simpl. apply children_step.
Qed.

Lemma stats_fold_updates l : forall n m,
  stats n = stats m -> stats (fold_updates l n) = stats (fold_updates l m).
Proof.
  unfold fold_updates. induction l as [|r l IH]; intros n m H; simpl; [assumption|].
  apply IH. now apply stats_step.
Qed.

(** *** The bbox against the points *)

Lemma bbox_of_points_stats pts n m :
  stats n = stats m -> bbox_of_points pts m -> bbox_of_points pts n.
Proof.
  intro H. apply stats_fields in H as (_ & _ & _ & Hb & _). unfold bbox_of_points.
  now rewrite Hb.
Qed.

Lemma bbox_of_points_step pts n r :
  bbox_of_points pts n -> forallb pair_not_nan (coords [r]) = true ->
  bbox_of_points (pts ++ coords [r]) (step n r).
Proof.
  unfold bbox_of_points, step, update_node, coords. simpl.
  destruct (rec_lat r) as [la|], (rec_lng r) as [ln|]; simpl;
    try (rewrite app_nil_r; intros H _; exact H).
  intros H Hnn. rewrite andb_true_r in Hnn. unfold pair_not_nan in Hnn. simpl in Hnn.
  apply andb_true_iff in Hnn as [Hln Hla].
  destruct (bbox n) as [b|].
  - destruct H as (Hb & Hin & A1 & A2 & A3 & A4).
    pose proof Hb as Hb'. unfold bbox_not_nan in Hb'.
    apply andb_true_iff in Hb' as [Hb' H4]. apply andb_true_iff in Hb' as [Hb' H3].
    apply andb_true_iff in Hb' as [H1 H2].
    destruct (py_min_le _ _ H1 Hln) as [M1 M2]. destruct (py_min_le _ _ H2 Hla) as [M3 M4].
    destruct (py_max_ge _ _ H3 Hln) as [M5 M6]. destruct (py_max_ge _ _ H4 Hla) as [M7 M8].
    split; [|split].
    + unfold bbox_not_nan. simpl. now rewrite !py_min_not_nan, !py_max_not_nan.
    + intros q Hq. apply in_app_or in Hq as [Hq|[<-|[]]].
      * destruct (Hin q Hq) as (C1 & C2 & C3 & C4). unfold bbox_contains. simpl.
        repeat split; eauto using fle_trans.
      * unfold bbox_contains. simpl. auto.
    + rewrite !map_app. simpl. rewrite !in_app_iff. simpl.
      destruct (py_min_cases (min_lng b) ln) as [-> | ->],
               (py_max_cases (max_lng b) ln) as [-> | ->],
               (py_min_cases (min_lat b) la) as [-> | ->],
               (py_max_cases (max_lat b) la) as [-> | ->]; auto 10.
  - subst pts. simpl. split; [|split].
    + unfold bbox_not_nan. simpl. now rewrite Hln, Hla.
    + intros q [<-|[]]. unfold bbox_contains. simpl. auto using fle_refl.
    + auto 10.
Qed.

Lemma bbox_of_points_fold l : forall pts n,
  bbox_of_points pts n -> forallb pair_not_nan (coords l) = true ->
  bbox_of_points (pts ++ coords l) (fold_updates l n).
Proof.
  unfold fold_updates. induction l as [|r l IH]; intros pts n H Hnn.
  - simpl. now rewrite app_nil_r.
  - change (r :: l) with ([r] ++ l) in Hnn |- *.
    rewrite coords_app, forallb_app in Hnn. apply andb_true_iff in Hnn as [Hr Hl].
    rewrite coords_app, app_assoc, fold_left_app.
    apply IH; [|assumption]. now apply bbox_of_points_step.
Qed.

End FieldFacts.

Lemma bbox_is_min_max_aux (rs : list Rec) (p : Path) (node : Node) (b : BBox) :
  node_at (aggregate_all rs) p = Some node ->
  forallb pair_not_nan (coords (routed p rs)) = true ->
  bbox node = Some b ->
  (forall q, In q (coords (routed p rs)) -> bbox_contains b (fst q) (snd q))
  /\ In (min_lng b) (map fst (coords (routed p rs)))
  /\ In (max_lng b) (map fst (coords (routed p rs)))
  /\ In (min_lat b) (map snd (coords (routed p rs)))
  /\ In (max_lat b) (map snd (coords (routed p rs))).
Proof.
  intros H Hnn Hb. apply node_at_stats in H as [_ Hs].
  assert (G : bbox_of_points (coords (routed p rs)) node).
  { eapply bbox_of_points_stats; [exact Hs|].
    apply (bbox_of_points_fold (routed p rs) []); [reflexivity|assumption]. }
  unfold bbox_of_points in G. rewrite Hb in G. tauto.
Qed.

(** When no coordinate folded into a node is NaN, its bbox is the box of
    minima and maxima of the points folded into it: every such point lies
    within it, each of the four bounds is the longitude (latitude) of one of
    the points, and the lower bounds are not above the upper ones. *)
Theorem bbox_is_min_max (rs : list Rec) (p : Path) (node : Node) (b : BBox) :
  node_at (aggregate_all rs) p = Some node ->
  forallb pair_not_nan (coords (routed p rs)) = true ->
  bbox node = Some b ->
  (forall q, In q (coords (routed p rs)) -> bbox_contains b (fst q) (snd q))
  /\ In (min_lng b) (map fst (coords (routed p rs)))
  /\ In (max_lng b) (map fst (coords (routed p rs)))
  /\ In (min_lat b) (map snd (coords (routed p rs)))
  /\ In (max_lat b) (map snd (coords (routed p rs)))
  /\ fle (min_lng b) (max_lng b)
  /\ fle (min_lat b) (max_lat b).
Proof.
  intros H Hnn Hb.
  destruct (bbox_is_min_max_aux rs p node b H Hnn Hb) as (Hin & A1 & A2 & A3 & A4).
  repeat split; try assumption; try (now apply Hin).
  - apply in_map_iff in A1 as (q & _ & Hq). destruct (Hin q Hq) as (C1 & C2 & _).
    eapply fle_trans; eassumption.
  - apply in_map_iff in A3 as (q & _ & Hq). destruct (Hin q Hq) as (_ & _ & C3 & C4).
    eapply fle_trans; eassumption.
Qed.

(** The region of the scenario: its bbox is the single point of Maipú. *)
Lemma bbox_is_min_max_witness :
  exists b, bbox_contains b (-70.7)%float (-33.5)%float
            /\ fle (min_lng b) (max_lng b) /\ fle (min_lat b) (max_lat b).
Proof.
  eexists.
  destruct (bbox_is_min_max sample_records (PRegion (str "Chile") (str "RM")) _ _
              eq_refl eq_refl eq_refl) as (Hin & _ & _ & _ & _ & H1 & H2).
  split; [|split; [exact H1|exact H2]].
  apply (Hin ((-70.7)%float, (-33.5)%float)). left. reflexivity.
Defined.

(** ** Counts, sums and the shape of the tree *)

Lemma node_at_exists (rs : list Rec) (p : Path) :
  routed p rs <> [] -> exists node, node_at (aggregate_all rs) p = Some node.
Proof.
  intro H. pose proof (node_at_aggregate rs p) as G.
  destruct (node_at (aggregate_all rs) p) as [node|]; [now exists node|contradiction].
Qed.

Lemma node_at_coords (rs : list Rec) (p : Path) (node : Node) :
  node_at (aggregate_all rs) p = Some node ->
  has_center node = Z.of_nat (List.length (coords (routed p rs))).
Proof. intro H. now rewrite coords_length, (node_at_has_center _ _ _ H). Qed.

Lemma coords_perm (l l' : list Rec) : Permutation l l' -> Permutation (coords l) (coords l').
Proof. intro H. unfold coords. now apply Permutation_flat_map. Qed.

Lemma coords_groups (grp : pystr -> list Rec) (ks : list pystr) :
  coords (flat_map grp ks) = flat_map (fun k => coords (grp k)) ks.
Proof. apply flat_map_groups. Qed.

Lemma routed_app (p : Path) (rs rs' : list Rec) :
  routed p (rs ++ rs') = routed p rs ++ routed p rs'.
Proof. apply filter_app. Qed.

Lemma Zsum_field {B} (f : Node -> Z) (d : Dict Node) (grp : pystr -> list B) :
  (forall k n, In (k, n) d -> f n = Z.of_nat (List.length (grp k))) ->
  Zsum (map f (values d)) = Z.of_nat (List.length (flat_map grp (keys d))).
Proof.
  induction d as [|[k n] d IH]; intro H; simpl; [reflexivity|].
  rewrite length_app, Nat2Z.inj_add, (H k n (or_introl eq_refl)).
  f_equal. apply IH. intros k' n' Hin. apply H. now right.
Qed.

Lemma filter_perm {A} (f : A -> bool) (l l' : list A) :
  Permutation l l' -> Permutation (filter f l) (filter f l').
Proof.
  induction 1 as [|x l l' _ IH|x y l|l l' l'' _ IH1 _ IH2]; simpl.
  - constructor.
  - destruct (f x); [now constructor|assumption].
  - destruct (f x), (f y); try reflexivity. apply perm_swap.
  - now transitivity (filter f l').
Qed.

(** Every node carries the name it is stored under; its count is the number
    of records that name it (at least one); [has_center] is the number of those
    that carry both coordinates; and the two centroid sums are the floating
    point sums, from 0.0 and in stream order, of their longitudes and
    latitudes. *)
Theorem node_fields_of_records (rs : list Rec) (p : Path) (node : Node) :
  node_at (aggregate_all rs) p = Some node ->
  name node = path_name p
  /\ count node = Z.of_nat (List.length (routed p rs))
  /\ 0 < count node
  /\ has_center node = Z.of_nat (List.length (coords (routed p rs)))
  /\ sum_lng node = fsum (map fst (coords (routed p rs)))
  /\ sum_lat node = fsum (map snd (coords (routed p rs))).
Proof.
  intro H. pose proof (node_at_count _ _ _ H) as Hc.
  pose proof (node_at_coords _ _ _ H) as Hh.
  apply node_at_stats in H as [Hne Hs].
  apply stats_fields in Hs as (Hn & _ & _ & _ & Hx & Hy & _).
  destruct (sums_fold_updates (routed p rs) (Node_init (path_name p) (path_level p)))
    as [Sx Sy].
  repeat split; try assumption.
  - now rewrite Hn, name_fold_updates.
  - rewrite Hc. destruct (routed p rs); [contradiction|simpl; lia].
  - now rewrite Hx, Sx.
  - now rewrite Hy, Sy.
Qed.

(** The place of Maipú in the scenario. *)
Lemma node_fields_of_records_witness :
  exists node,
    node_at (aggregate_all sample_records) (PPlace (str "Chile") (str "RM") Maipu) = Some node
    /\ name node = Maipu /\ count node = 1 /\ has_center node = 1
    /\ sum_lng node = (-70.7)%float.
Proof.
  eexists. split; [reflexivity|].
  destruct (node_fields_of_records sample_records (PPlace (str "Chile") (str "RM") Maipu) _
              eq_refl) as (H1 & H2 & _ & H4 & H5 & _).
  repeat split; assumption.
Defined.

(** A node exists exactly when some record names it, and the tree has three
    levels: a country node has no places of its own, a region node has no
    regions, and a place node has no children at all. *)
Theorem tree_shape (rs : list Rec) (p : Path) :
  (node_at (aggregate_all rs) p <> None <-> exists r, In r rs /\ names p r = true)
  /\ forall node, node_at (aggregate_all rs) p = Some node ->
       match p with
       | PCountry _ => places node = []
       | PRegion _ _ => regions node = []
       | PPlace _ _ _ => regions node = [] /\ places node = []
       end.
Proof.
  split.
  - pose proof (node_at_aggregate rs p) as G. split.
    + intro H. destruct (node_at (aggregate_all rs) p); [|contradiction].
      destruct G as [Hne _]. destruct (routed p rs) as [|r l] eqn:E; [contradiction|].
      exists r. apply filter_In. unfold routed in E. rewrite E. now left.
    + intros (r & Hin & Hr) H. rewrite H in G.
      assert (Hf : In r (routed p rs)) by now apply filter_In.
      rewrite G in Hf. destruct Hf.
  - intros node H. destruct p as [c|c g|c g pl].
    + simpl in H. rewrite country_at in H.
      destruct (routed (PCountry c) rs) as [|r l]; [discriminate|]. injection H as <-.
      apply (fold_country_update (r :: l)).
    + rewrite region_at in H.
      destruct (routed (PRegion c g) rs) as [|r l]; [discriminate|]. injection H as <-.
      apply (regions_fold_region_update (r :: l)).
    + rewrite place_at in H.
      destruct (routed (PPlace c g pl) rs) as [|r l]; [discriminate|]. injection H as <-.
      apply (children_fold_updates (r :: l)).
Qed.

(** Folding more records never removes a node and never lowers its numbers:
    the node is still there, its count has grown by the number of new records
    that name it, [has_center] has not decreased, a bbox that was present is
    still present, and (no coordinate being NaN) the new bbox covers the old. *)
Theorem nodes_only_grow (rs rs' : list Rec) (p : Path) (node : Node) :
  node_at (aggregate_all rs) p = Some node ->
  exists node',
    node_at (aggregate_all (rs ++ rs')) p = Some node'
    /\ count node' = count node + Z.of_nat (List.length (routed p rs'))
    /\ has_center node <= has_center node'
    /\ (bbox node <> None -> bbox node' <> None)
    /\ (forallb pair_not_nan (coords (routed p (rs ++ rs'))) = true ->
        forall b b', bbox node = Some b -> bbox node' = Some b' -> bbox_covers b' b).
Proof.
  intro H. pose proof (node_at_stats _ _ _ H) as [Hne _].
  destruct (node_at_exists (rs ++ rs') p) as [node' H'].
  { rewrite routed_app. destruct (routed p rs); [contradiction|discriminate]. }
  exists node'. split; [exact H'|].
  pose proof (node_at_coords _ _ _ H) as Hh. pose proof (node_at_coords _ _ _ H') as Hh'.
  rewrite routed_app, coords_app, length_app in Hh'.
  assert (Hhc : has_center node <= has_center node') by lia.
  destruct (node_at_inv _ _ _ H) as [_ Hb]. destruct (node_at_inv _ _ _ H') as [_ Hb'].
  split; [|split; [|split]].
  - rewrite (node_at_count _ _ _ H), (node_at_count _ _ _ H'), routed_app, length_app. lia.
  - exact Hhc.
  - intro Hbb. apply Hb'. apply Hb in Hbb. lia.
  - intros Hnn b b' Eb Eb'.
    assert (Hnn0 : forallb pair_not_nan (coords (routed p rs)) = true).
    { rewrite routed_app, coords_app, forallb_app in Hnn. now apply andb_true_iff in Hnn. }
    destruct (bbox_is_min_max_aux rs p node b H Hnn0 Eb) as (_ & A1 & A2 & A3 & A4).
    destruct (bbox_is_min_max_aux (rs ++ rs') p node' b' H' Hnn Eb') as (Hin' & _).
    assert (Hsub : forall q, In q (coords (routed p rs)) ->
                     In q (coords (routed p (rs ++ rs')))).
    { intros q Hq. rewrite routed_app, coords_app. apply in_or_app. now left. }
    apply in_map_iff in A1 as (q1 & E1 & Q1). apply in_map_iff in A2 as (q2 & E2 & Q2).
    apply in_map_iff in A3 as (q3 & E3 & Q3). apply in_map_iff in A4 as (q4 & E4 & Q4).
    unfold bbox_covers. rewrite <- E1, <- E2, <- E3, <- E4.
    destruct (Hin' q1 (Hsub q1 Q1)) as (C1 & _). destruct (Hin' q2 (Hsub q2 Q2)) as (_ & C2 & _).
    destruct (Hin' q3 (Hsub q3 Q3)) as (_ & _ & C3 & _).
    destruct (Hin' q4 (Hsub q4 Q4)) as (_ & _ & _ & C4).
    auto.
Qed.

(** The region of the scenario after the first record and after both. *)
Lemma nodes_only_grow_witness :
  exists node node',
    node_at (aggregate_all (firstn 1 sample_records)) (PRegion (str "Chile") (str "RM"))
    = Some node
    /\ node_at (aggregate_all sample_records) (PRegion (str "Chile") (str "RM")) = Some node'
    /\ count node' = count node + 1
    /\ (bbox node <> None -> bbox node' <> None).
Proof.
  eexists.
  destruct (nodes_only_grow (firstn 1 sample_records) (skipn 1 sample_records)
              (PRegion (str "Chile") (str "RM")) _ eq_refl)
    as (node' & H & Hc & _ & Hb & _).
  exists node'. split; [reflexivity|]. split; [exact H|]. split; [exact Hc|exact Hb].
Defined.

(** [has_center] adds up like [count]: the number of a country node is the sum
    over its region nodes, and the number of a region node is the sum over its
    place nodes. *)
Theorem has_center_additive (rs : list Rec) (c : pystr) (cn : Node) :
  dict_get (aggregate_all rs) c = Some cn ->
  has_center cn = Zsum (map has_center (values (regions cn)))
  /\ forall g rn, In (g, rn) (regions cn) ->
       has_center rn = Zsum (map has_center (values (places rn))).
Proof.
  intro Hc.
  assert (Hregion : forall g rn, In (g, rn) (regions cn) ->
            node_at (aggregate_all rs) (PRegion c g) = Some rn).
  { intros g rn. now apply In_region_at. }
  split.
  - rewrite (node_at_coords rs (PCountry c) cn Hc).
    rewrite (Permutation_length (coords_perm _ _ (routed_regions_perm _ _ _ Hc))).
    rewrite coords_groups. symmetry.
    apply (Zsum_field has_center (regions cn) (fun g => coords (routed (PRegion c g) rs))).
    intros g rn Hin. now apply node_at_coords, Hregion.
  - intros g rn Hin. pose proof (Hregion g rn Hin) as Hg.
    rewrite (node_at_coords rs (PRegion c g) rn Hg).
    rewrite (Permutation_length (coords_perm _ _ (routed_places_perm _ _ _ _ Hg))).
    rewrite coords_groups. symmetry.
    apply (Zsum_field has_center (places rn)
             (fun pl => coords (routed (PPlace c g pl) rs))).
    intros pl pn Hpl. now apply node_at_coords, (In_place_at rs c g rn).
Qed.

(** The country of the scenario. *)
Lemma has_center_additive_witness :
  exists cn, dict_get (aggregate_all sample_records) (str "Chile") = Some cn
             /\ has_center cn = Zsum (map has_center (values (regions cn))).
Proof.
  eexists. split; [reflexivity|].
  exact (proj1 (has_center_additive sample_records (str "Chile") _ eq_refl)).
Defined.

(** Which nodes exist and their counts do not depend on the order of the
    records: after the same records in another order every node is there again
    with the same [count] and [has_center], and with a bbox exactly when it had
    one. *)
Theorem counts_order_free (rs rs' : list Rec) (p : Path) (node : Node) :
  Permutation rs rs' ->
  node_at (aggregate_all rs) p = Some node ->
  exists node',
    node_at (aggregate_all rs') p = Some node'
    /\ count node' = count node
    /\ has_center node' = has_center node
    /\ (bbox node' <> None <-> bbox node <> None).
Proof.
  intros Hp H.
  assert (Hr : Permutation (routed p rs) (routed p rs')) by now apply filter_perm.
  pose proof (node_at_stats _ _ _ H) as [Hne _].
  destruct (node_at_exists rs' p) as [node' H'].
  { intro E. rewrite E in Hr. apply Permutation_sym, Permutation_nil in Hr. contradiction. }
  exists node'. split; [exact H'|].
  assert (Hh : has_center node' = has_center node).
  { rewrite (node_at_coords _ _ _ H), (node_at_coords _ _ _ H').
    now rewrite (Permutation_length (coords_perm _ _ Hr)). }
  split; [|split; [exact Hh|]].
  - rewrite (node_at_count _ _ _ H), (node_at_count _ _ _ H').
    now rewrite (Permutation_length Hr).
  - destruct (node_at_inv _ _ _ H) as [_ Hb]. destruct (node_at_inv _ _ _ H') as [_ Hb'].
    rewrite Hb, Hb', Hh. reflexivity.
Qed.

(** The two records of the scenario in the other order. *)
Lemma counts_order_free_witness :
  exists node',
    node_at (aggregate_all (rev sample_records)) (PCountry (str "Chile")) = Some node'
    /\ count node' = 2 /\ has_center node' = 1.
Proof.
  destruct (counts_order_free sample_records (rev sample_records) (PCountry (str "Chile")) _
              (Permutation_rev sample_records) eq_refl) as (node' & H & Hc & Hh & _).
  exists node'. split; [exact H|]. split; [exact Hc|exact Hh].
Defined.

(** ** The loop as a pipeline *)

Section LoopFacts.
Variable float_of_str : pystr -> option float.
Variable decode_tile : bytes -> option Tile.

Lemma normalize_all_app (fs fs' : list Feature) :
  normalize_all float_of_str (fs ++ fs')
  = bind (normalize_all float_of_str fs)
      (fun rs => bind (normalize_all float_of_str fs') (fun rs' => Ok (rs ++ rs'))).
Proof.
  induction fs as [|f fs IH]; simpl.
  - now destruct (normalize_all float_of_str fs').
  - destruct (normalize float_of_str (feature_props f)); simpl; [|reflexivity].
    rewrite IH. destruct (normalize_all float_of_str fs); simpl; [|reflexivity].
    now destruct (normalize_all float_of_str fs').
Qed.

Lemma process_features_normalize_all (fs : list Feature) : forall countries,
  process_features float_of_str fs countries
  = bind (normalize_all float_of_str fs) (fun rs => Ok (fold_left aggregate rs countries)).
Proof.
  induction fs as [|f fs IH]; intro cs; simpl; [reflexivity|].
  unfold process_feature. fold (feature_props f).
  destruct (normalize float_of_str (feature_props f)); simpl; [|reflexivity].
  rewrite IH. now destruct (normalize_all float_of_str fs).
Qed.

Lemma process_tile_features (raw : bytes) (countries : Dict Node) :
  process_tile float_of_str decode_tile countries raw
  = process_features float_of_str (tile_features decode_tile raw) countries.
Proof.
  unfold process_tile, tile_features.
  destruct (decode_tile raw) as [tile|]; [|reflexivity].
  now destruct (dict_get tile LAYER_NAME).
Qed.

Lemma process_tiles_normalize_all (tiles : list (TileId * bytes)) : forall countries,
  process_tiles float_of_str decode_tile tiles countries
  = bind (normalize_all float_of_str (all_features decode_tile tiles))
      (fun rs => Ok (fold_left aggregate rs countries)).
Proof.
  induction tiles as [|[id raw] tiles IH]; intro cs; simpl; [reflexivity|].
  rewrite process_tile_features, process_features_normalize_all, normalize_all_app.
  destruct (normalize_all float_of_str (tile_features decode_tile raw)) as [rs|e];
    simpl; [|reflexivity].
  rewrite IH. destruct (normalize_all float_of_str (all_features decode_tile tiles));
    simpl; [|reflexivity].
  now rewrite fold_left_app.
Qed.

End LoopFacts.

(** [build_filters] is a pipeline of three stages: gather, in tile order, the
    features of the layer from the tiles that decode; normalise them in that
    order, the first feature that raises ending the run with its exception and
    no document; fold the records into the tree and serialise it. *)
Theorem build_filters_pipeline (float_of_str : pystr -> option float)
    (decode_tile : bytes -> option Tile) (tiles : list (TileId * bytes)) :
  build_filters float_of_str decode_tile tiles
  = bind (normalize_all float_of_str (all_features decode_tile tiles))
      (fun rs => Ok (document (aggregate_all rs))).
Proof.
  unfold build_filters. rewrite process_tiles_normalize_all.
  now destruct (normalize_all float_of_str (all_features decode_tile tiles)).
Qed.

(** A tile that decodes but has no layer [piscinas_merged], or whose layer has
    no features, is passed over like a tile that fails to decode: the result is
    that of the archive without the tile. *)
Theorem tile_without_layer_skipped (float_of_str : pystr -> option float)
    (decode_tile : bytes -> option Tile) (pre post : list (TileId * bytes))
    (id : TileId) (raw : bytes) (tile : Tile) :
  decode_tile raw = Some tile ->
  match dict_get tile LAYER_NAME with
  | None => True
  | Some layer => features layer = None \/ features layer = Some []
  end ->
  build_filters float_of_str decode_tile (pre ++ (id, raw) :: post)
  = build_filters float_of_str decode_tile (pre ++ post).
Proof.
  intros Hd Hl.
  assert (Hf : tile_features decode_tile raw = []).
  { unfold tile_features. rewrite Hd. destruct (dict_get tile LAYER_NAME) as [layer|];
      [|reflexivity]. now destruct Hl as [-> | ->]. }
  unfold build_filters. rewrite !process_tiles_normalize_all.
  unfold all_features. rewrite !flat_map_app. simpl. now rewrite Hf.
Qed.

(** The tile coordinates are never read, and the grouping of the features
    into tiles does not matter: two archives that yield the same sequence of
    features give the same result. *)
Theorem result_depends_on_features (float_of_str : pystr -> option float)
    (decode_tile : bytes -> option Tile) (tiles tiles' : list (TileId * bytes)) :
  all_features decode_tile tiles = all_features decode_tile tiles' ->
  build_filters float_of_str decode_tile tiles = build_filters float_of_str decode_tile tiles'.
Proof.
  intro H. unfold build_filters. now rewrite !process_tiles_normalize_all, H.
Qed.

(** The sample archive with a tile that holds another layer only. *)
Lemma tile_without_layer_skipped_witness :
  build_filters sample_float_of_str sample_decode_more
    [ ((0, 0, 0), [ Byte.x01 ]); ((2, 1, 1), [ Byte.x03 ]); ((1, 1, 0), [ Byte.x02 ]) ]
  = build_filters sample_float_of_str sample_decode_more
      [ ((0, 0, 0), [ Byte.x01 ]); ((1, 1, 0), [ Byte.x02 ]) ].
Proof.
  exact (tile_without_layer_skipped sample_float_of_str sample_decode_more
           [ ((0, 0, 0), [ Byte.x01 ]) ] [ ((1, 1, 0), [ Byte.x02 ]) ]
           (2, 1, 1) [ Byte.x03 ] other_layer_tile eq_refl I).
Defined.

(** The two features of the scenario in two tiles and in one. *)
Lemma result_depends_on_features_witness :
  build_filters sample_float_of_str sample_decode_more
    [ ((0, 0, 0), [ Byte.x01 ]); ((1, 1, 0), [ Byte.x02 ]) ]
  = build_filters sample_float_of_str sample_decode_more [ ((5, 7, 9), [ Byte.x04 ]) ].
Proof.
  exact (result_depends_on_features sample_float_of_str sample_decode_more
           [ ((0, 0, 0), [ Byte.x01 ]); ((1, 1, 0), [ Byte.x02 ]) ]
           [ ((5, 7, 9), [ Byte.x04 ]) ] eq_refl).
Defined.

(** ** Looking nodes up in the document *)

Section LookupFacts.

Lemma dict_get_map_values {V W} (f : V -> W) (l : Dict V) (k : pystr) :
  dict_get (map (fun '(nm, child) => (nm, f child)) l) k = option_map f (dict_get l k).
Proof.
  induction l as [|[k' v] l IH]; simpl; [reflexivity|].
  now destruct (str_eqb k' k).
Qed.

Lemma dict_get_perm {V} (d d' : Dict V) (k : pystr) :
  NoDup (keys d) -> Permutation d d' -> dict_get d' k = dict_get d k.
Proof.
  intros Hnd Hp.
  assert (Hnd' : NoDup (keys d')).
  { eapply Permutation_NoDup; [|exact Hnd]. now apply Permutation_map. }
  destruct (dict_get d k) as [v|] eqn:E.
  - apply In_dict_get; [assumption|]. eapply Permutation_in; [exact Hp|].
    now apply dict_get_In.
  - apply dict_get_None. apply dict_get_None in E. intro H. apply E.
    eapply Permutation_in; [|exact H]. apply Permutation_sym. now apply Permutation_map.
Qed.

Lemma obj_get_children (f : Node -> json) (d : Dict Node) (k : pystr) :
  NoDup (keys d) ->
  obj_get (serialize_children f d) k = option_map f (dict_get d k).
Proof.
  intro Hnd. unfold serialize_children. simpl. rewrite dict_get_map_values.
  f_equal. apply dict_get_perm; [assumption|apply sorted_items_perm].
Qed.

Lemma get_count (node : Node) (lv : Level) :
  obj_get (serialize node lv) (str "count") = Some (JInt (count node)).
Proof. destruct lv; reflexivity. Qed.

Lemma obj_path_app (j : json) (path path' : list pystr) :
  obj_path j (path ++ path')
  = match obj_path j path with
    | Some j' => obj_path j' path'
    | None => None
    end.
Proof.
  revert j. induction path as [|k path IH]; intro j; simpl; [reflexivity|].
  destruct (obj_get j k); [apply IH|reflexivity].
Qed.

Lemma document_lookup_aux (rs : list Rec) (p : Path) :
  obj_path (document (aggregate_all rs)) (doc_path p)
  = option_map (fun node => serialize node (path_level p)) (node_at (aggregate_all rs) p).
Proof.
  pose proof (aggregate_all_wf rs) as [Hc _].
  assert (Hcountry : forall c,
            obj_path (document (aggregate_all rs)) [ str "countries"; c ]
            = option_map (fun node => serialize node Country)
                (dict_get (aggregate_all rs) c)).
  { intro c. change (obj_path (document (aggregate_all rs)) [ str "countries"; c ])
      with (match obj_get (serialize_children (fun n => serialize n Country)
                             (aggregate_all rs)) c with
            | Some j => Some j
            | None => None
            end).
    rewrite obj_get_children by assumption. now destruct (dict_get (aggregate_all rs) c). }
  assert (Hregion : forall c g,
            obj_path (document (aggregate_all rs)) [ str "countries"; c; str "regions"; g ]
            = option_map (fun node => serialize node Region)
                (node_at (aggregate_all rs) (PRegion c g))).
  { intros c g.
    change [ str "countries"; c; str "regions"; g ]
      with ([ str "countries"; c ] ++ [ str "regions"; g ]).
    rewrite obj_path_app, Hcountry. simpl node_at.
    destruct (dict_get (aggregate_all rs) c) as [cn|] eqn:E; [|reflexivity].
    cbn [option_map obj_path]. rewrite get_regions.
    rewrite obj_get_children by (eapply NoDup_regions; eassumption).
    now destruct (dict_get (regions cn) g). }
  destruct p as [c|c g|c g pl].
  - apply Hcountry.
  - apply Hregion.
  - change (doc_path (PPlace c g pl))
      with ([ str "countries"; c; str "regions"; g ] ++ [ str "places"; pl ]).
    rewrite obj_path_app, Hregion.
    destruct (node_at (aggregate_all rs) (PRegion c g)) as [rn|] eqn:E.
    + pose proof (NoDup_places _ _ _ _ E) as Hnd. cbn [option_map obj_path node_at] in E |- *.
      destruct (dict_get (aggregate_all rs) c) as [cn|]; [|discriminate]. rewrite E.
      rewrite get_places. rewrite obj_get_children by assumption.
      now destruct (dict_get (places rn) pl).
    + cbn [option_map node_at] in E |- *.
      destruct (dict_get (aggregate_all rs) c) as [cn|]; [|reflexivity].
      now rewrite E.
Qed.

End LookupFacts.

(** Serialising loses and invents nothing: the document holds, under
    [countries / c], [countries / c / regions / g] and
    [countries / c / regions / g / places / p], the serialised node the tree
    holds under those names, and nothing where the tree holds none; so an entry
    is in the document exactly when some record names it. *)
Theorem document_lookup (rs : list Rec) (p : Path) :
  obj_path (document (aggregate_all rs)) (doc_path p)
  = option_map (fun node => serialize node (path_level p)) (node_at (aggregate_all rs) p)
  /\ (obj_path (document (aggregate_all rs)) (doc_path p) <> None
      <-> exists r, In r rs /\ names p r = true).
Proof.
  pose proof (document_lookup_aux rs p) as H. split; [exact H|]. rewrite H.
  pose proof (node_at_aggregate rs p) as G.
  destruct (node_at (aggregate_all rs) p) as [node|]; simpl.
  - destruct G as [Hne _]. split; [|discriminate]. intros _.
    destruct (routed p rs) as [|r l] eqn:E; [contradiction|].
    exists r. apply filter_In. unfold routed in E. rewrite E. now left.
  - split; [intro F; now contradiction F|]. intros (r & Hin & Hr).
    assert (Hf : In r (routed p rs)) by now apply filter_In.
    rewrite G in Hf. destruct Hf.
Qed.

(** In the document of a run that ends normally, the [count] written for a
    country, region or place is the number of features, among those of the
    tiles that decode, whose normalised names lead to it; a name that no
    feature has is not in the document. *)
Theorem output_counts (float_of_str : pystr -> option float)
    (decode_tile : bytes -> option Tile) (tiles : list (TileId * bytes)) (doc : json) :
  build_filters float_of_str decode_tile tiles = Ok doc ->
  exists rs,
    normalize_all float_of_str (all_features decode_tile tiles) = Ok rs
    /\ forall p, obj_path doc (doc_path p ++ [ str "count" ])
                 = match routed p rs with
                   | [] => None
                   | l => Some (JInt (Z.of_nat (List.length l)))
                   end.
Proof.
  unfold build_filters. rewrite process_tiles_normalize_all.
  destruct (normalize_all float_of_str (all_features decode_tile tiles)) as [rs|e];
    simpl; [|discriminate].
  intros [= <-]. exists rs. split; [reflexivity|]. intro p.
  rewrite obj_path_app. fold (aggregate_all rs). rewrite document_lookup_aux.
  pose proof (node_at_aggregate rs p) as G.
  destruct (node_at (aggregate_all rs) p) as [node|] eqn:E.
  - simpl. rewrite get_count, (node_at_count _ _ _ E).
    destruct G as [Hne _]. now destruct (routed p rs).
  - now rewrite G.
Qed.

(** The sample archive: two features name Chile, one names Santiago. *)
Lemma output_counts_witness :
  exists doc,
    build_filters sample_float_of_str sample_decode sample_tiles = Ok doc
    /\ obj_path doc (doc_path (PCountry (str "Chile")) ++ [ str "count" ]) = Some (JInt 2)
    /\ obj_path doc (doc_path (PPlace (str "Chile") (str "RM") (str "Santiago"))
                      ++ [ str "count" ]) = Some (JInt 1)
    /\ obj_path doc (doc_path (PCountry (str "Peru")) ++ [ str "count" ]) = None.
Proof.
  eexists. split; [vm_compute; reflexivity|].
  destruct (output_counts sample_float_of_str sample_decode sample_tiles _ eq_refl)
    as (rs & Hrs & H).
  injection Hrs as <-.
  split; [|split].
  - exact (H (PCountry (str "Chile"))).
  - exact (H (PPlace (str "Chile") (str "RM") (str "Santiago"))).
  - exact (H (PCountry (str "Peru"))).
Defined.

(** The number of countries [main] reports is the number of distinct country
    names among the normalised features: the names in the document are pairwise
    distinct and are exactly the country names of the records. *)
Theorem countries_reported (float_of_str : pystr -> option float)
    (decode_tile : bytes -> option Tile) (tiles : list (TileId * bytes)) (doc : json) :
  build_filters float_of_str decode_tile tiles = Ok doc ->
  exists rs cs,
    normalize_all float_of_str (all_features decode_tile tiles) = Ok rs
    /\ obj_get doc (str "countries") = Some (JObj cs)
    /\ countries_written doc = Some (List.length cs)
    /\ NoDup (keys cs)
    /\ forall c, In c (keys cs) <-> exists r, In r rs /\ rec_country r = c.
Proof.
  unfold build_filters. rewrite process_tiles_normalize_all.
  destruct (normalize_all float_of_str (all_features decode_tile tiles)) as [rs|e];
    simpl; [|discriminate].
  intros [= <-]. exists rs. eexists. split; [reflexivity|]. split; [reflexivity|].
  split; [reflexivity|]. fold (aggregate_all rs).
  pose proof (aggregate_all_wf rs) as [Hnd _].
  assert (Hk : Permutation (keys (aggregate_all rs))
                 (keys (map (fun '(nm, child) => (nm, serialize child Country))
                          (sorted_items (aggregate_all rs))))).
  { rewrite (keys_serialize_children (fun n => serialize n Country) (aggregate_all rs)
             : keys (map _ _) = _).
    apply Permutation_map, sorted_items_perm. }
  split; [eapply Permutation_NoDup; eassumption|].
  intro c. split.
  - intro Hin. apply Permutation_sym in Hk. apply (Permutation_in _ Hk) in Hin.
    destruct (dict_get (aggregate_all rs) c) as [cn|] eqn:E.
    + apply node_at_stats with (p := PCountry c) in E as [Hne _].
      destruct (routed (PCountry c) rs) as [|r l] eqn:F; [contradiction|].
      assert (Hr : In r (routed (PCountry c) rs)) by (rewrite F; now left).
      apply filter_In in Hr as [Hr Hn]. exists r. split; [assumption|].
      now apply str_eqb_eq.
    + apply dict_get_None in E. contradiction.
  - intros (r & Hr & <-). apply (Permutation_in _ Hk).
    destruct (dict_get (aggregate_all rs) (rec_country r)) as [cn|] eqn:E.
    + apply dict_get_In in E. change (rec_country r) with (fst (rec_country r, cn)).
      now apply in_map.
    + pose proof (node_at_aggregate rs (PCountry (rec_country r))) as G.
      simpl node_at in G. rewrite E in G.
      assert (Hf : In r (routed (PCountry (rec_country r)) rs)).
      { apply filter_In. split; [assumption|]. simpl. apply str_eqb_refl. }
      rewrite G in Hf. destruct Hf.
Qed.

(** The sample archive names one country. *)
Lemma countries_reported_witness :
  exists doc,
    build_filters sample_float_of_str sample_decode sample_tiles = Ok doc
    /\ countries_written doc = Some 1%nat.
Proof.
  eexists. split; [vm_compute; reflexivity|].
  destruct (countries_reported sample_float_of_str sample_decode sample_tiles _ eq_refl)
    as (rs & cs & _ & Hget & Hw & _).
  injection Hget as <-. exact Hw.
Defined.

(** ** Integers as floats *)

Section IntFacts.

Lemma digits2_pos_bound (p : positive) : forall k, Zpos p < 2 ^ k -> Zpos (digits2_pos p) <= k.
Proof.
  induction p as [p IH|p IH|]; intros k H; simpl.
  - assert (0 < k) by (destruct k; simpl in *; lia).
    replace k with (Z.succ (k - 1)) in H by lia. rewrite Z.pow_succ_r in H by lia.
    specialize (IH (k - 1)). lia.
  - assert (0 < k) by (destruct k; simpl in *; lia).
    replace k with (Z.succ (k - 1)) in H by lia. rewrite Z.pow_succ_r in H by lia.
    specialize (IH (k - 1)). lia.
  - destruct k; simpl in *; lia.
Qed.

Lemma digits2_pos_succ (p : positive) : Zpos (digits2_pos (Pos.succ p)) <= Zpos (digits2_pos p) + 1.
Proof. induction p; simpl; lia. Qed.

Lemma digits2_pos_iter_xO (d p : positive) :
  Zpos (digits2_pos (Pos.iter xO p d)) = Zpos (digits2_pos p) + Zpos d.
Proof.
  induction d using Pos.peano_ind.
  - simpl. lia.
  - rewrite Pos.iter_succ. simpl. lia.
Qed.

Lemma Zdigits2_shr_1 (mrs : shr_record) :
  0 <= shr_m mrs -> Zdigits2 (shr_m (shr_1 mrs)) <= Zdigits2 (shr_m mrs).
Proof.
  destruct mrs as [m r s]. simpl. destruct m as [|p|p]; simpl; try lia.
  destruct p; simpl; lia.
Qed.

Lemma Zdigits2_iter_shr_1 (p : positive) : forall mrs,
  0 <= shr_m mrs -> Zdigits2 (shr_m (iter_pos shr_1 p mrs)) <= Zdigits2 (shr_m mrs).
Proof.
  induction p as [p IH|p IH|]; simpl; intros mrs H.
  - etransitivity; [apply IH; apply iter_shr_1_nonneg; now apply shr_1_nonneg|].
    etransitivity; [apply IH; now apply shr_1_nonneg|]. now apply Zdigits2_shr_1.
  - etransitivity; [apply IH; now apply iter_shr_1_nonneg|]. now apply IH.
  - now apply Zdigits2_shr_1.
Qed.

Lemma shr_fexp_bounds (m e : Z) (l : location) :
  0 <= m ->
  Zdigits2 (shr_m (fst (shr_fexp prec emax m e l))) <= Zdigits2 m
  /\ snd (shr_fexp prec emax m e l) <= Z.max e (Z.max (Zdigits2 m + e - 53) (-1074)).
Proof.
  intro H. unfold shr_fexp, shr.
  assert (H0 : shr_m (shr_record_of_loc m l) = m) by (destruct l as [|[]]; reflexivity).
  change (fexp prec emax (Zdigits2 m + e)) with (Z.max (Zdigits2 m + e - 53) (-1074)).
  destruct (Z.max (Zdigits2 m + e - 53) (-1074) - e) as [|p|p] eqn:E; simpl; rewrite ?H0;
    try lia.
  split; [|lia]. rewrite <- H0 at 2. apply Zdigits2_iter_shr_1. now rewrite H0.
Qed.

Lemma Zdigits2_round (m : Z) (l : location) :
  0 <= m -> Zdigits2 (round_nearest_even m l) <= Zdigits2 m + 1.
Proof.
  intro H.
  assert (S : Zdigits2 (m + 1) <= Zdigits2 m + 1).
  { destruct m as [|p|p]; [simpl; lia| |lia].
    change (Z.pos p + 1) with (Z.pos (p + 1)). rewrite Pos.add_1_r. simpl.
    apply digits2_pos_succ. }
  destruct l as [|[]]; simpl; try lia. destruct (Z.even m); lia.
Qed.

Lemma binary_round_aux_finite (s : bool) (m e : Z) (l : location) :
  0 <= m -> Zdigits2 m <= 64 -> e <= 0 -> not_inf (binary_round_aux prec emax s m e l).
Proof.
  intros Hm Hd He. unfold binary_round_aux.
  destruct (shr_fexp_bounds m e l Hm) as (A2 & A3).
  pose proof (shr_fexp_nonneg m e l Hm) as A1.
  destruct (shr_fexp prec emax m e l) as [mrs' e']. simpl in A1, A2, A3.
  pose proof (round_nearest_even_nonneg _ (loc_of_shr_record mrs') A1) as R1.
  pose proof (Zdigits2_round _ (loc_of_shr_record mrs') A1) as R2.
  destruct (shr_fexp_bounds _ e' loc_Exact R1) as (B2 & B3).
  destruct (shr_fexp prec emax _ e' loc_Exact) as [mrs'' e'']. simpl in B2, B3.
  destruct (shr_m mrs'') as [|p|p]; simpl; try exact I.
  change (emax - prec) with 971.
  destruct (Z.leb_spec e'' 971); simpl; [exact I|lia].
Qed.

Lemma int_to_SF_finite (n : Z) : mvt_int n -> not_inf (int_to_SF n).
Proof.
  unfold mvt_int, int_to_SF, binary_normalize. intro H.
  assert (G : forall sg p, Zpos p < 2 ^ 64 -> not_inf (binary_round prec emax sg p 0)).
  { intros sg p Hp. unfold binary_round, shl_align.
    pose proof (digits2_pos_bound p 64 Hp) as Hd.
    change (fexp prec emax (Z.pos (digits2_pos p) + 0))
      with (Z.max (Zpos (digits2_pos p) + 0 - 53) (-1074)).
    destruct (Z.max (Z.pos (digits2_pos p) + 0 - 53) (-1074) - 0) as [|d|d] eqn:E.
    - apply binary_round_aux_finite; simpl; lia.
    - apply binary_round_aux_finite; simpl; lia.
    - apply binary_round_aux_finite; [lia| |lia].
      simpl. rewrite digits2_pos_iter_xO. lia. }
  destruct n as [|p|p]; [exact I| |]; apply G; lia.
Qed.

Lemma float_of_int_ok (n : Z) : mvt_int n -> exists f, float_of_int n = Ok f.
Proof.
  intro H. apply int_to_SF_finite in H. unfold float_of_int.
  destruct (int_to_SF n); simpl in H; try contradiction; eauto.
Qed.

End IntFacts.

(** ** The normaliser *)

Section NormalizeFacts.
Variable float_of_str : pystr -> option float.

Lemma lstrip_clean (s : pystr) : starts_clean (lstrip s).
Proof.
  induction s as [|c s IH]; simpl; [exact I|].
  destruct (isspace c) eqn:E; [exact IH|exact E].
Qed.

Lemma clean_lstrip (s : pystr) : starts_clean s -> lstrip s = s.
Proof. destruct s as [|c s]; simpl; [reflexivity|]. now intros ->. Qed.

Lemma lstrip_suffix (s : pystr) : exists w, s = w ++ lstrip s.
Proof.
  induction s as [|c s [w IH]]; simpl; [now exists []|].
  destruct (isspace c); [|now exists []].
  exists (c :: w). simpl. now f_equal.
Qed.

Lemma starts_clean_prefix (a b : pystr) : starts_clean (a ++ b) -> a <> [] -> starts_clean a.
Proof. destruct a; simpl; [contradiction|auto]. Qed.

(** The result of [strip] has no blank at either end. *)
Lemma strip_ends (s : pystr) : starts_clean (strip s) /\ starts_clean (rev (strip s)).
Proof.
  unfold strip. rewrite rev_involutive. split; [|apply lstrip_clean].
  destruct (lstrip_suffix (rev (lstrip s))) as [w Hw].
  set (u := lstrip (rev (lstrip s))) in *.
  destruct (rev u) as [|c t] eqn:E; [exact I|].
  assert (Ht : lstrip s = rev u ++ rev w).
  { rewrite <- rev_app_distr, <- Hw. now rewrite rev_involutive. }
  apply (starts_clean_prefix (c :: t) (rev w)); [|discriminate].
  rewrite <- E, <- Ht. apply lstrip_clean.
Qed.

Lemma clean_strip (s : pystr) : starts_clean s -> starts_clean (rev s) -> strip s = s.
Proof.
  intros H1 H2. unfold strip. rewrite (clean_lstrip s H1), (clean_lstrip _ H2).
  apply rev_involutive.
Qed.

Lemma strip_stripped (s : pystr) : stripped (strip s).
Proof. destruct (strip_ends s). now apply clean_strip. Qed.

Lemma name_field_ok (v : option PyVal) (fallback s : pystr) :
  fallback <> [] -> stripped fallback ->
  name_field v fallback = Ok s -> s <> [] /\ stripped s.
Proof.
  intros Hne Hst. unfold name_field.
  destruct (py_strip (py_or v (Some (VStr [])))) as [t|e] eqn:E; simpl; [|discriminate].
  intros [= <-]. destruct t as [|c t]; [now split|]. split; [discriminate|].
  unfold py_strip in E. destruct (py_or v (Some (VStr []))) as [[x| | |]|]; try discriminate.
  injection E as E. rewrite <- E. apply strip_stripped.
Qed.

Lemma name_field_text (v : option PyVal) (fallback : pystr) :
  (text_or_falsy v = true -> exists s, name_field v fallback = Ok s)
  /\ (text_or_falsy v = false -> name_field v fallback = Raise AttributeError).
Proof.
  unfold name_field, py_or, py_strip.
  destruct v as [[s|n|f|b]|]; simpl;
    [destruct s|destruct (n =? 0)|destruct (f =? 0)%float|destruct b|]; simpl;
    split; intro H; try discriminate H; try reflexivity; eexists; reflexivity.
Qed.

Lemma mvt_props_get (props : Props) (k : pystr) (x : PyVal) :
  mvt_props props -> dict_get props k = Some x -> mvt_value x.
Proof.
  intros H E. apply dict_get_In in E. unfold mvt_props in H.
  rewrite Forall_forall in H. exact (H _ E).
Qed.

Lemma to_float_ok (props : Props) (k1 k2 : pystr) :
  mvt_props props ->
  exists o, to_float float_of_str (py_or (dict_get props k1) (dict_get props k2)) = Ok o.
Proof.
  intro H.
  assert (G : forall x, py_or (dict_get props k1) (dict_get props k2) = Some x -> mvt_value x).
  { unfold py_or. intros x.
    destruct (truthy_opt (dict_get props k1)); now apply mvt_props_get. }
  destruct (py_or (dict_get props k1) (dict_get props k2)) as [x|]; simpl; [|eauto].
  specialize (G x eq_refl). destruct x as [s|n|f|b]; simpl; eauto.
  - destruct (float_of_str s); eauto.
  - destruct (float_of_int_ok n G) as [f ->]. eauto.
Qed.

End NormalizeFacts.

(** The names of a record are never empty and carry no blank at either end:
    each is the stripped text of a property or the fallback of its level. *)
Theorem names_well_formed (float_of_str : pystr -> option float) (props : Props) (r : Rec) :
  normalize float_of_str props = Ok r ->
  (rec_country r <> [] /\ stripped (rec_country r))
  /\ (rec_region r <> [] /\ stripped (rec_region r))
  /\ (rec_place r <> [] /\ stripped (rec_place r)).
Proof.
  unfold normalize. intro H.
  destruct (name_field (dict_get props (str "country")) Sin_pais) as [c|] eqn:Ec;
    simpl in H; [|discriminate].
  destruct (name_field _ Sin_region) as [g|] eqn:Eg; simpl in H; [|discriminate].
  destruct (name_field _ Sin_lugar) as [pl|] eqn:Ep; simpl in H; [|discriminate].
  destruct (to_float float_of_str _); simpl in H; [|discriminate].
  destruct (to_float float_of_str _); simpl in H; [|discriminate].
  destruct (to_float float_of_str _); simpl in H; [|discriminate].
  injection H as <-. simpl.
  split; [|split]; eapply name_field_ok; try eassumption; try discriminate; reflexivity.
Qed.

(** The country ["  Chile "] is filed as ["Chile"]. *)
Lemma names_well_formed_witness :
  exists r, normalize sample_float_of_str padded_props = Ok r
            /\ rec_country r = str "Chile"
            /\ rec_region r <> [] /\ stripped (rec_place r).
Proof.
  eexists. split; [vm_compute; reflexivity|].
  destruct (names_well_formed sample_float_of_str padded_props _ eq_refl)
    as (_ & (Hg & _) & (_ & Hp)).
  split; [reflexivity|]. split; [exact Hg|exact Hp].
Defined.

(** A [region] property that is non-empty text decides the region alone: the
    record's region is its stripped text, or the fallback [Sin región] when the
    text is blank, and [district] is not consulted, so a blank region hides a
    district that is named. *)
Theorem region_text_decides (float_of_str : pystr -> option float) (props : Props)
    (s : pystr) (r : Rec) :
  dict_get props (str "region") = Some (VStr s) ->
  s <> [] ->
  normalize float_of_str props = Ok r ->
  rec_region r = match strip s with
                 | [] => Sin_region
                 | t => t
                 end.
Proof.
  intros Hg Hs. unfold normalize. rewrite Hg.
  assert (E : py_or (Some (VStr s)) (dict_get props (str "district")) = Some (VStr s)).
  { unfold py_or. simpl. now destruct s. }
  rewrite E. intro H.
  destruct (name_field (dict_get props (str "country")) Sin_pais); simpl in H; [|discriminate].
  unfold name_field at 1 in H.
  replace (py_or (Some (VStr s)) (Some (VStr []))) with (Some (VStr s)) in H
    by (unfold py_or; simpl; now destruct s).
  simpl in H.
  destruct (name_field _ Sin_lugar); simpl in H; [|discriminate].
  destruct (to_float float_of_str _); simpl in H; [|discriminate].
  destruct (to_float float_of_str _); simpl in H; [|discriminate].
  destruct (to_float float_of_str _); simpl in H; [|discriminate].
  injection H as <-. simpl. now destruct (strip s).
Qed.

(** The region [" "] with the district ["Maipo"]: the record goes to the
    fallback region. *)
Lemma region_text_decides_witness :
  exists r, normalize sample_float_of_str blank_region_props = Ok r
            /\ rec_region r = Sin_region.
Proof.
  eexists. split; [vm_compute; reflexivity|].
  exact (region_text_decides sample_float_of_str blank_region_props (str " ") _ eq_refl
           ltac:(discriminate) eq_refl).
Defined.

(** On the values a vector tile can hold (text, floats, booleans and integers
    of at most 64 bits) the normaliser raises nothing but [AttributeError], and
    raises it exactly when one of the three selected name values is neither
    text nor falsy; the numbers never make it raise: [float] of such an integer
    does not overflow, and text that does not parse makes the number absent. *)
Theorem normalize_errors (float_of_str : pystr -> option float) (props : Props) :
  mvt_props props ->
  let cv := dict_get props (str "country") in
  let rv := py_or (dict_get props (str "region")) (dict_get props (str "district")) in
  let pv := py_or (dict_get props (str "place")) (dict_get props (str "label")) in
  (text_or_falsy cv && text_or_falsy rv && text_or_falsy pv = true ->
   exists r, normalize float_of_str props = Ok r)
  /\ (text_or_falsy cv && text_or_falsy rv && text_or_falsy pv = false ->
      normalize float_of_str props = Raise AttributeError).
Proof.
  intros Hm cv rv pv. unfold normalize. fold cv rv pv.
  destruct (name_field_text cv Sin_pais) as [C1 C2].
  destruct (name_field_text rv Sin_region) as [R1 R2].
  destruct (name_field_text pv Sin_lugar) as [P1 P2].
  destruct (to_float_ok float_of_str props (str "centroid_lat") (str "lat") Hm) as [la Hla].
  destruct (to_float_ok float_of_str props (str "centroid_lng") (str "lng") Hm) as [ln Hln].
  destruct (to_float_ok float_of_str props (str "area") (str "area_ha") Hm) as [ar Har].
  destruct (text_or_falsy cv).
  - destruct (C1 eq_refl) as [c ->]. simpl.
    destruct (text_or_falsy rv).
    + destruct (R1 eq_refl) as [g ->]. simpl.
      destruct (text_or_falsy pv).
      * destruct (P1 eq_refl) as [pl ->]. simpl. rewrite Hla, Hln, Har. simpl.
        split; [eauto|discriminate].
      * rewrite (P2 eq_refl). simpl. split; [discriminate|reflexivity].
    + rewrite (R2 eq_refl). simpl. split; [discriminate|reflexivity].
  - rewrite (C2 eq_refl). simpl. split; [discriminate|reflexivity].
Qed.

(** A feature with an integer area and a textual latitude is normalised. *)
Lemma normalize_errors_witness :
  exists r, normalize sample_float_of_str padded_props = Ok r.
Proof.
  apply (normalize_errors sample_float_of_str padded_props).
  - unfold mvt_props, padded_props. repeat constructor; unfold mvt_int; lia.
  - reflexivity.
Defined.

(** ** Runs that end normally *)

Lemma normalize_ok (float_of_str : pystr -> option float) (props : Props) :
  mvt_props props -> names_are_text props = true ->
  exists r, normalize float_of_str props = Ok r.
Proof.
  intros Hm Hn. unfold names_are_text in Hn.
  apply andb_true_iff in Hn as [Hn Hp]. apply andb_true_iff in Hn as [Hc Hg].
  unfold normalize.
  destruct (proj1 (name_field_text _ Sin_pais) Hc) as [c ->].
  destruct (proj1 (name_field_text _ Sin_region) Hg) as [g ->].
  destruct (proj1 (name_field_text _ Sin_lugar) Hp) as [pl ->]. simpl.
  destruct (to_float_ok float_of_str props (str "centroid_lat") (str "lat") Hm) as [la ->].
  destruct (to_float_ok float_of_str props (str "centroid_lng") (str "lng") Hm) as [ln ->].
  destruct (to_float_ok float_of_str props (str "area") (str "area_ha") Hm) as [ar ->].
  simpl. eauto.
Qed.

Lemma normalize_all_ok (float_of_str : pystr -> option float) (fs : list Feature) :
  Forall (fun f => mvt_props (feature_props f) /\ names_are_text (feature_props f) = true) fs ->
  exists rs, normalize_all float_of_str fs = Ok rs /\ List.length rs = List.length fs.
Proof.
  induction 1 as [|f fs [Hm Hn] _ [rs [IH Hlen]]]; simpl; [now exists []|].
  destruct (normalize_ok float_of_str _ Hm Hn) as [r ->]. rewrite IH. simpl.
  exists (r :: rs). split; [reflexivity|]. simpl. now rewrite Hlen.
Qed.

(** When every feature of the layer, in the tiles that decode, holds tile
    values only (integers of at most 64 bits) and has text or falsy values for
    the names the normaliser selects, [build_filters] returns a document, and
    as many records are folded as there are features: none is dropped, however
    malformed its numbers are. *)
Theorem build_filters_succeeds (float_of_str : pystr -> option float)
    (decode_tile : bytes -> option Tile) (tiles : list (TileId * bytes)) :
  Forall (fun f => mvt_props (feature_props f) /\ names_are_text (feature_props f) = true)
    (all_features decode_tile tiles) ->
  exists rs,
    build_filters float_of_str decode_tile tiles = Ok (document (aggregate_all rs))
    /\ normalize_all float_of_str (all_features decode_tile tiles) = Ok rs
    /\ List.length rs = List.length (all_features decode_tile tiles).
Proof.
  intro H. destruct (normalize_all_ok float_of_str _ H) as (rs & Hrs & Hlen).
  exists rs. split; [|split; assumption].
  unfold build_filters. now rewrite process_tiles_normalize_all, Hrs.
Qed.

(** The sample archive. *)
Lemma build_filters_succeeds_witness :
  exists rs,
    build_filters sample_float_of_str sample_decode sample_tiles
    = Ok (document (aggregate_all rs))
    /\ List.length rs = 2%nat.
Proof.
  destruct (build_filters_succeeds sample_float_of_str sample_decode sample_tiles)
    as (rs & H & _ & Hlen).
  - repeat constructor.
  - exists rs. split; [exact H|exact Hlen].
Defined.

(** In the document every country, region and place entry carries, as its
    [name], the key it is filed under. *)
Theorem output_names (rs : list Rec) (p : Path) :
  obj_path (document (aggregate_all rs)) (doc_path p) <> None ->
  obj_path (document (aggregate_all rs)) (doc_path p ++ [ str "name" ])
  = Some (JStr (path_name p)).
Proof.
  rewrite obj_path_app, document_lookup_aux.
  destruct (node_at (aggregate_all rs) p) as [node|] eqn:E; [|intro H; now contradiction H].
  intros _. apply node_at_stats in E as [_ Hs].
  apply stats_fields in Hs as (Hn & _). rewrite name_fold_updates in Hn. simpl in Hn.
  simpl option_map. cbn [obj_path]. rewrite <- Hn.
  now destruct (path_level p).
Qed.

(** The place of Santiago in the scenario. *)
Lemma output_names_witness :
  obj_path (document (aggregate_all sample_records))
    (doc_path (PPlace (str "Chile") (str "RM") (str "Santiago")) ++ [ str "name" ])
  = Some (JStr (str "Santiago")).
Proof.
  apply (output_names sample_records (PPlace (str "Chile") (str "RM") (str "Santiago"))).
  vm_compute. discriminate.
Defined.

(** ** Fallback names *)

(** A name that is not supplied (its properties are missing, falsy or blank)
    becomes the fallback of its level, [Sin país], [Sin región] or
    [Sin lugar]; the three fallbacks differ from one another. *)
Theorem fallback_names (float_of_str : pystr -> option float) (props : Props) (r : Rec) :
  normalize float_of_str props = Ok r ->
  (no_name (dict_get props (str "country")) -> rec_country r = Sin_pais)
  /\ (no_name (py_or (dict_get props (str "region")) (dict_get props (str "district"))) ->
      rec_region r = Sin_region)
  /\ (no_name (py_or (dict_get props (str "place")) (dict_get props (str "label"))) ->
      rec_place r = Sin_lugar)
  /\ Sin_pais <> Sin_region /\ Sin_pais <> Sin_lugar /\ Sin_region <> Sin_lugar.
Proof.
  unfold normalize. intro H.
  destruct (name_field (dict_get props (str "country")) Sin_pais) as [c|] eqn:Ec;
    simpl in H; [|discriminate].
  destruct (name_field _ Sin_region) as [g|] eqn:Eg; simpl in H; [|discriminate].
  destruct (name_field _ Sin_lugar) as [pl|] eqn:Ep; simpl in H; [|discriminate].
  destruct (to_float float_of_str _); simpl in H; [|discriminate].
  destruct (to_float float_of_str _); simpl in H; [|discriminate].
  destruct (to_float float_of_str _); simpl in H; [|discriminate].
  injection H as <-. simpl.
  split; [|split; [|split; [|repeat split; discriminate]]]; intro Hno.
  - rewrite (name_field_no_name _ Sin_pais Hno) in Ec. now injection Ec.
  - rewrite (name_field_no_name _ Sin_region Hno) in Eg. now injection Eg.
  - rewrite (name_field_no_name _ Sin_lugar Hno) in Ep. now injection Ep.
Qed.

(** A feature without properties. *)
Lemma fallback_names_witness :
  exists r, normalize sample_float_of_str (feature_props (mkFeature None)) = Ok r
            /\ rec_country r = Sin_pais /\ rec_region r = Sin_region
            /\ rec_place r = Sin_lugar.
Proof.
  eexists. split; [vm_compute; reflexivity|].
  destruct (fallback_names sample_float_of_str (feature_props (mkFeature None)) _ eq_refl)
    as (Hc & Hg & Hp & _).
  split; [|split]; [apply Hc|apply Hg|apply Hp]; left; reflexivity.
Defined.

(** * The serialised document *)

(** ** C8: the order of the serialised names *)

Section OrderFacts.

Lemma ascending_perm_unique (l1 : list pystr) : forall l2,
  ascending l1 -> ascending l2 -> Permutation l1 l2 -> l1 = l2.
Proof.
  unfold ascending. induction l1 as [|x l1 IH]; intros l2 H1 H2 Hp.
  - apply Permutation_nil in Hp. now subst.
  - destruct l2 as [|y l2]; [apply Permutation_sym, Permutation_nil in Hp; discriminate|].
    apply StronglySorted_inv in H1 as [H1 F1].
    apply StronglySorted_inv in H2 as [H2 F2].
    assert (Hxy : x = y).
    { assert (Hx : In x (y :: l2)) by (eapply Permutation_in; [exact Hp|now left]).
      assert (Hy : In y (x :: l1))
        by (eapply Permutation_in; [apply Permutation_sym; exact Hp|now left]).
      destruct Hx as [->|Hx]; [reflexivity|]. destruct Hy as [->|Hy]; [reflexivity|].
      rewrite Forall_forall in F1, F2.
      pose proof (F1 y Hy) as A. pose proof (F2 x Hx) as B.
      apply str_ltb_asym in A. unfold str_lt in B. congruence. }
    subst y. f_equal. apply IH; try assumption.
    now apply Permutation_cons_inv in Hp.
Qed.

Lemma In_keys_get {V} (d : Dict V) (k : pystr) : In k (keys d) <-> dict_get d k <> None.
Proof.
  pose proof (dict_get_None d k) as H. destruct (dict_get d k) as [v|] eqn:E.
  - split; [discriminate|]. intros _. apply dict_get_In in E.
    apply (in_map fst) in E. exact E.
  - split; [|congruence]. intro Hin. now apply H in Hin.
Qed.

(** Two dictionaries with the same names list them in the same sorted order. *)
Lemma sorted_keys_equal {V W} (d : Dict V) (d' : Dict W) :
  NoDup (keys d) -> NoDup (keys d') ->
  (forall k, dict_get d k <> None <-> dict_get d' k <> None) ->
  keys (sorted_items d) = keys (sorted_items d').
Proof.
  intros Hnd Hnd' Hget.
  apply ascending_perm_unique; try now apply sorted_items_ascending.
  transitivity (keys d); [apply Permutation_sym, Permutation_map, sorted_items_perm|].
  transitivity (keys d'); [|apply Permutation_map, sorted_items_perm].
  apply NoDup_Permutation; try assumption.
  intro k. now rewrite !In_keys_get.
Qed.

(** What a child mapping holds: the names of the dictionary, each once and in
    ascending order, each with its serialised node. *)
Lemma children_emitted (f : Node -> json) (d : Dict Node) :
  NoDup (keys d) ->
  exists items, serialize_children f d = JObj items
    /\ ascending (keys items)
    /\ Permutation (keys items) (keys d)
    /\ forall k j, In (k, j) items -> exists child, dict_get d k = Some child /\ j = f child.
Proof.
  intro Hnd. eexists. split; [reflexivity|]. split; [|split].
  - rewrite (keys_serialize_children f d : keys (map _ _) = _).
    now apply sorted_items_ascending.
  - rewrite (keys_serialize_children f d : keys (map _ _) = _).
    apply Permutation_sym, Permutation_map, sorted_items_perm.
  - intros k j Hin. apply (In_serialize_children f d) in Hin as (child & Hin & ->).
    exists child. split; [now apply In_dict_get|reflexivity].
Qed.

Lemma node_at_named (rs : list Rec) (p : Path) :
  node_at (aggregate_all rs) p <> None <-> exists r, In r rs /\ names p r = true.
Proof.
  pose proof (node_at_aggregate rs p) as G. split.
  - intro H. destruct (node_at (aggregate_all rs) p); [|contradiction].
    destruct G as [Hne _]. destruct (routed p rs) as [|r l] eqn:E; [contradiction|].
    exists r. apply filter_In. unfold routed in E. rewrite E. now left.
  - intros (r & Hin & Hr) H. rewrite H in G.
    assert (Hf : In r (routed p rs)) by now apply filter_In.
    rewrite G in Hf. destruct Hf.
Qed.

(** Which nodes exist does not depend on the order of the records. *)
Lemma node_at_perm (rs rs' : list Rec) (p : Path) :
  Permutation rs rs' ->
  node_at (aggregate_all rs) p <> None <-> node_at (aggregate_all rs') p <> None.
Proof.
  intro Hp. rewrite !node_at_named. split; intros (r & Hin & Hr); exists r; split;
    try assumption.
  - eapply Permutation_in; eassumption.
  - eapply Permutation_in; [apply Permutation_sym|]; eassumption.
Qed.

Lemma mapping_keys_countries (countries : Dict Node) :
  mapping_keys (document countries) [ str "countries" ]
  = Some (keys (sorted_items countries)).
Proof.
  unfold mapping_keys.
  change (obj_path (document countries) [ str "countries" ])
    with (Some (serialize_children (fun n => serialize n Country) countries)).
  cbn [option_map]. now rewrite keys_serialize_children.
Qed.

Lemma mapping_keys_regions (rs : list Rec) (c : pystr) :
  mapping_keys (document (aggregate_all rs)) [ str "countries"; c; str "regions" ]
  = option_map (fun cn => keys (sorted_items (regions cn)))
      (node_at (aggregate_all rs) (PCountry c)).
Proof.
  unfold mapping_keys.
  change [ str "countries"; c; str "regions" ]
    with (doc_path (PCountry c) ++ [ str "regions" ]).
  rewrite obj_path_app, document_lookup_aux.
  destruct (node_at (aggregate_all rs) (PCountry c)) as [cn|]; [|reflexivity].
  cbn [option_map obj_path path_level]. rewrite get_regions.
  cbn [option_map]. now rewrite keys_serialize_children.
Qed.

Lemma mapping_keys_places (rs : list Rec) (c g : pystr) :
  mapping_keys (document (aggregate_all rs))
    [ str "countries"; c; str "regions"; g; str "places" ]
  = option_map (fun rn => keys (sorted_items (places rn)))
      (node_at (aggregate_all rs) (PRegion c g)).
Proof.
  unfold mapping_keys.
  change [ str "countries"; c; str "regions"; g; str "places" ]
    with (doc_path (PRegion c g) ++ [ str "places" ]).
  rewrite obj_path_app, document_lookup_aux.
  destruct (node_at (aggregate_all rs) (PRegion c g)) as [rn|]; [|reflexivity].
  cbn [option_map obj_path path_level]. rewrite get_places.
  cbn [option_map]. now rewrite keys_serialize_children.
Qed.

Lemma region_get (rs : list Rec) (c g : pystr) (cn : Node) :
  node_at (aggregate_all rs) (PCountry c) = Some cn ->
  dict_get (regions cn) g = node_at (aggregate_all rs) (PRegion c g).
Proof. simpl. now intros ->. Qed.

Lemma place_get (rs : list Rec) (c g pl : pystr) (rn : Node) :
  node_at (aggregate_all rs) (PRegion c g) = Some rn ->
  dict_get (places rn) pl = node_at (aggregate_all rs) (PPlace c g pl).
Proof.
  simpl. destruct (dict_get (aggregate_all rs) c) as [cn|]; [|discriminate]. now intros ->.
Qed.

(** The key sequences of the document do not depend on the order in which the
    records were folded. *)
Lemma mapping_keys_order_free (rs rs' : list Rec) :
  Permutation rs rs' ->
  mapping_keys (document (aggregate_all rs')) [ str "countries" ]
  = mapping_keys (document (aggregate_all rs)) [ str "countries" ]
  /\ (forall c,
        mapping_keys (document (aggregate_all rs')) [ str "countries"; c; str "regions" ]
        = mapping_keys (document (aggregate_all rs)) [ str "countries"; c; str "regions" ])
  /\ (forall c g,
        mapping_keys (document (aggregate_all rs'))
          [ str "countries"; c; str "regions"; g; str "places" ]
        = mapping_keys (document (aggregate_all rs))
            [ str "countries"; c; str "regions"; g; str "places" ]).
Proof.
  intro Hp. split; [|split].
  - rewrite !mapping_keys_countries. f_equal. apply sorted_keys_equal.
    + apply aggregate_all_wf.
    + apply aggregate_all_wf.
    + intro c. apply (node_at_perm rs' rs (PCountry c)). now apply Permutation_sym.
  - intro c. rewrite !mapping_keys_regions.
    pose proof (node_at_perm rs rs' (PCountry c) Hp) as Hc.
    destruct (node_at (aggregate_all rs) (PCountry c)) as [cn|] eqn:E,
             (node_at (aggregate_all rs') (PCountry c)) as [cn'|] eqn:E'.
    + cbn [option_map]. f_equal. apply sorted_keys_equal.
      * eapply NoDup_regions. exact E'.
      * eapply NoDup_regions. exact E.
      * intro g. rewrite (region_get _ _ g _ E), (region_get _ _ g _ E').
        apply node_at_perm. now apply Permutation_sym.
    + exfalso. now apply (proj1 Hc).
    + exfalso. now apply (proj2 Hc).
    + reflexivity.
  - intros c g. rewrite !mapping_keys_places.
    pose proof (node_at_perm rs rs' (PRegion c g) Hp) as Hg.
    destruct (node_at (aggregate_all rs) (PRegion c g)) as [rn|] eqn:E,
             (node_at (aggregate_all rs') (PRegion c g)) as [rn'|] eqn:E'.
    + cbn [option_map]. f_equal. apply sorted_keys_equal.
      * eapply NoDup_places. exact E'.
      * eapply NoDup_places. exact E.
      * intro pl. rewrite (place_get _ _ _ pl _ E), (place_get _ _ _ pl _ E').
        apply node_at_perm. now apply Permutation_sym.
    + exfalso. now apply (proj1 Hg).
    + exfalso. now apply (proj2 Hg).
    + reflexivity.
Qed.

(** A run that ends normally has normalised every feature of the tiles that
    decode and returns the document of their records. *)
Lemma build_filters_records (float_of_str : pystr -> option float)
    (decode_tile : bytes -> option Tile) (tiles : list (TileId * bytes)) (doc : json) :
  build_filters float_of_str decode_tile tiles = Ok doc ->
  exists rs, normalize_all float_of_str (all_features decode_tile tiles) = Ok rs
    /\ doc = document (aggregate_all rs).
Proof.
  unfold build_filters. rewrite process_tiles_normalize_all.
  destruct (normalize_all float_of_str (all_features decode_tile tiles)) as [rs|e];
    simpl; [|discriminate].
  intros [= <-]. now exists rs.
Qed.

End OrderFacts.

(** C8.  In the document of any run that ends normally, the mapping under
    [countries] holds exactly the names of the country dictionary of the tree
    folded from the run's records, each once, in strictly ascending code point
    order, and each with the serialised country node; the mapping under
    [regions] of every country holds in the same way the names of that
    country's region dictionary with the serialised region nodes, and the
    mapping under [places] of every region the names of that region's place
    dictionary with the serialised place nodes.  The order is not the order in
    which the names were first seen: had the records been folded in any other
    order, the key sequence of every one of these mappings would be the same;
    and the sorted items of a dictionary are the same for every insertion
    order of the same items. *)
Theorem serialized_keys_ascending (float_of_str : pystr -> option float)
    (decode_tile : bytes -> option Tile) (tiles : list (TileId * bytes)) (doc : json) :
  build_filters float_of_str decode_tile tiles = Ok doc ->
  (exists rs cs,
     normalize_all float_of_str (all_features decode_tile tiles) = Ok rs
     /\ obj_get doc (str "countries") = Some (JObj cs)
     /\ ascending (keys cs)
     /\ Permutation (keys cs) (keys (aggregate_all rs))
     /\ (forall c cdoc, In (c, cdoc) cs ->
           exists cn gs,
             dict_get (aggregate_all rs) c = Some cn
             /\ cdoc = serialize cn Country
             /\ obj_get cdoc (str "regions") = Some (JObj gs)
             /\ ascending (keys gs)
             /\ Permutation (keys gs) (keys (regions cn))
             /\ forall g gdoc, In (g, gdoc) gs ->
                  exists rn ps,
                    dict_get (regions cn) g = Some rn
                    /\ gdoc = serialize rn Region
                    /\ obj_get gdoc (str "places") = Some (JObj ps)
                    /\ ascending (keys ps)
                    /\ Permutation (keys ps) (keys (places rn))
                    /\ forall pl pdoc, In (pl, pdoc) ps ->
                         exists pn, dict_get (places rn) pl = Some pn
                                    /\ pdoc = serialize pn Place)
     /\ (forall rs', Permutation rs rs' ->
           let doc' := document (aggregate_all rs') in
           mapping_keys doc' [ str "countries" ] = Some (keys cs)
           /\ (forall c,
                 mapping_keys doc' [ str "countries"; c; str "regions" ]
                 = mapping_keys doc [ str "countries"; c; str "regions" ])
           /\ (forall c g,
                 mapping_keys doc' [ str "countries"; c; str "regions"; g; str "places" ]
                 = mapping_keys doc [ str "countries"; c; str "regions"; g; str "places" ])))
  /\ (forall d d' : Dict Node,
        NoDup (keys d) -> Permutation d d' -> sorted_items d = sorted_items d').
Proof.
  intro H. split; [|intros d d'; apply sorted_items_order_free].
  apply build_filters_records in H as (rs & Hrs & ->).
  pose proof (aggregate_all_wf rs) as [Hnd _].
  destruct (children_emitted (fun n => serialize n Country) _ Hnd)
    as (cs & Hcs & Hasc & Hperm & Hin).
  exists rs, cs. split; [exact Hrs|]. split; [|split; [exact Hasc|split; [exact Hperm|split]]].
  - change (obj_get (document (aggregate_all rs)) (str "countries"))
      with (Some (serialize_children (fun n => serialize n Country) (aggregate_all rs))).
    now rewrite Hcs.
  - intros c cdoc Hc. destruct (Hin c cdoc Hc) as (cn & Hcn & ->).
    destruct (children_emitted serialize_region _ (NoDup_regions _ _ _ Hcn))
      as (gs & Hgs & Hgasc & Hgperm & Hgin).
    exists cn, gs. split; [exact Hcn|]. split; [reflexivity|].
    split; [now rewrite get_regions, Hgs|]. split; [exact Hgasc|]. split; [exact Hgperm|].
    intros g gdoc Hg. destruct (Hgin g gdoc Hg) as (rn & Hrn & ->).
    assert (Hat : node_at (aggregate_all rs) (PRegion c g) = Some rn)
      by (simpl; now rewrite Hcn).
    destruct (children_emitted serialize_place _ (NoDup_places _ _ _ _ Hat))
      as (ps & Hps & Hpasc & Hpperm & Hpin).
    exists rn, ps. split; [exact Hrn|]. split; [reflexivity|].
    split; [now rewrite (get_places rn : obj_get (serialize_region rn) _ = _), Hps|].
    split; [exact Hpasc|]. split; [exact Hpperm|].
    intros pl pdoc Hpl. destruct (Hpin pl pdoc Hpl) as (pn & Hpn & ->).
    now exists pn.
  - intros rs' Hp doc'. unfold doc'.
    destruct (mapping_keys_order_free rs rs' Hp) as (H1 & H2 & H3).
    split; [|split; assumption].
    rewrite H1, mapping_keys_countries. f_equal.
    injection Hcs as <-. symmetry. apply (keys_serialize_children _ (aggregate_all rs)).
Qed.

(** A tile that names Peru, then Chile: the document lists Chile first. *)
Lemma serialized_keys_ascending_witness :
  exists doc cs,
    build_filters sample_float_of_str unsorted_decode [ ((0, 0, 0), [ Byte.x05 ]) ] = Ok doc
    /\ obj_get doc (str "countries") = Some (JObj cs)
    /\ ascending (keys cs)
    /\ Permutation (keys cs) [ str "Peru"; str "Chile" ]
    /\ mapping_keys doc [ str "countries"; str "Peru"; str "regions" ]
       = Some [ str "Cusco"; str "Lima" ].
Proof.
  eexists.
  destruct (serialized_keys_ascending sample_float_of_str unsorted_decode
              [ ((0, 0, 0), [ Byte.x05 ]) ] _ eq_refl)
    as [(rs & cs & Hrs & Hget & Hasc & Hperm & _) _].
  injection Hrs as <-.
  exists cs. split; [reflexivity|]. split; [exact Hget|]. split; [exact Hasc|].
  split; [exact Hperm|reflexivity].
Defined.

(** ** C10: bbox and center of a serialised node *)

Section RoundFacts.

Lemma nearest_even_unique (num den k k' : Z) :
  0 < den -> nearest_even num den k -> nearest_even num den k' -> k = k'.
Proof.
  intros Hd [H1 E1] [H2 E2].
  assert (D : -1 <= k - k' <= 1) by nia.
  assert (C : k = k' \/ k = k' + 1 \/ k' = k + 1) by lia.
  destruct C as [C|[C|C]]; [exact C| |]; exfalso.
  - subst k. assert (A : Z.abs (2 * num - 2 * (k' + 1) * den) = den) by nia.
    assert (B : Z.abs (2 * num - 2 * k' * den) = den) by nia.
    specialize (E1 A). specialize (E2 B).
    rewrite Z.add_1_r, Z.even_succ, <- Z.negb_even, E2 in E1. discriminate.
  - subst k'. assert (A : Z.abs (2 * num - 2 * (k + 1) * den) = den) by nia.
    assert (B : Z.abs (2 * num - 2 * k * den) = den) by nia.
    specialize (E1 B). specialize (E2 A).
    rewrite Z.add_1_r, Z.even_succ, <- Z.negb_even, E1 in E2. discriminate.
Qed.

Lemma scaled_half_even_nearest (m : positive) (e : Z) :
  0 <= scaled_half_even m e
  /\ nearest_even (scaled_num m e) (scaled_den e) (scaled_half_even m e).
Proof.
  unfold scaled_half_even, scaled_num, scaled_den, nearest_even.
  destruct (Z.leb_spec 0 e) as [He|He].
  - rewrite Z.max_l, Z.max_r by lia. rewrite Z.pow_0_r.
    set (n := Z.pos m * 1000000 * 2 ^ e).
    assert (Hn : 0 <= n).
    { subst n. apply Z.mul_nonneg_nonneg; [lia|]. apply Z.pow_nonneg. lia. }
    replace (2 * n - 2 * n * 1) with 0 by lia. simpl Z.abs.
    split; [exact Hn|]. split; [lia|discriminate].
  - rewrite Z.max_r, Z.max_l by lia. rewrite Z.pow_0_r, Z.mul_1_r.
    set (num := Z.pos m * 1000000). set (den := 2 ^ (- e)).
    assert (Hden : 0 < den) by (apply Z.pow_pos_nonneg; lia).
    assert (Hnum : 0 <= num) by (subst num; lia).
    pose proof (Z.div_mod num den ltac:(lia)) as Hdm.
    pose proof (Z.mod_pos_bound num den Hden) as Hr.
    assert (Hq : 0 <= num / den) by (apply Z.div_pos; lia).
    set (q := num / den) in *. set (r := num mod den) in *.
    assert (Hk : 2 * num - 2 * q * den = 2 * r) by lia.
    assert (Hk' : 2 * num - 2 * (q + 1) * den = 2 * r - 2 * den) by lia.
    destruct (Z.compare_spec (2 * r) den) as [E|E|E].
    + destruct (Z.even q) eqn:Ev.
      * split; [lia|]. rewrite Hk. split; [lia|intros _; exact Ev].
      * split; [lia|]. rewrite Hk'. split; [lia|]. intros _.
        now rewrite Z.add_1_r, Z.even_succ, <- Z.negb_even, Ev.
    + split; [lia|]. rewrite Hk. split; lia.
    + split; [lia|]. rewrite Hk'. split; lia.
Qed.

(** [round6] rounds to six decimals, and the rounding of a float is unique. *)
Lemma round6_rounded6 (x : float) : rounded6 x (round6 x).
Proof.
  unfold rounded6, round6. destruct (Prim2SF x) as [s|s| |s m e] eqn:E; try reflexivity.
  destruct (scaled_half_even_nearest m e) as [H0 Hn].
  exists (scaled_half_even m e). split; [exact H0|]. split; [exact Hn|reflexivity].
Qed.

Lemma rounded6_unique (x y y' : float) : rounded6 x y -> rounded6 x y' -> y = y'.
Proof.
  unfold rounded6. destruct (Prim2SF x) as [s|s| |s m e]; try congruence.
  intros (k & _ & Hk & ->) (k' & _ & Hk' & ->). f_equal.
  apply (nearest_even_unique (scaled_num m e) (scaled_den e)); try assumption.
  apply Z.pow_pos_nonneg; lia.
Qed.

(** *** The count as a float *)

Lemma Zpos_iter_xO (d p : positive) : Zpos (Pos.iter xO p d) = Zpos p * 2 ^ Zpos d.
Proof.
  induction d as [|d IH] using Pos.peano_ind.
  - simpl. lia.
  - rewrite Pos.iter_succ, Pos2Z.inj_succ, Z.pow_succ_r by lia.
    rewrite Pos2Z.inj_xO, IH. lia.
Qed.

Lemma binary_round_aux_exact (s : bool) (mz : positive) (ez : Z) :
  Zpos (digits2_pos mz) = 53 -> -1074 <= ez <= 971 ->
  binary_round_aux prec emax s (Zpos mz) ez loc_Exact = S754_finite s mz ez.
Proof.
  intros Hd He.
  assert (Hs : forall l, shr_fexp prec emax (Zpos mz) ez l
                         = (shr_record_of_loc (Zpos mz) l, ez)).
  { intro l. unfold shr_fexp. simpl Zdigits2. rewrite Hd.
    change (fexp prec emax (53 + ez)) with (Z.max (53 + ez - 53) (-1074)).
    replace (Z.max (53 + ez - 53) (-1074) - ez) with 0 by lia. reflexivity. }
  unfold binary_round_aux. rewrite Hs. simpl. rewrite Hs. simpl.
  change (emax - prec) with 971. destruct (Z.leb_spec ez 971); [reflexivity|lia].
Qed.

(** Below 2^53 the conversion of a count is exact. *)
Lemma int_to_SF_exact (n : Z) :
  0 < n < 2 ^ 53 ->
  exists m e, int_to_SF n = S754_finite false m e
    /\ -52 <= e <= 0 /\ Zpos m = n * 2 ^ (- e) /\ Zpos (digits2_pos m) = 53.
Proof.
  intros [H0 H1]. destruct n as [|p|p]; try lia.
  unfold int_to_SF, binary_normalize, binary_round, shl_align.
  pose proof (digits2_pos_bound p 53 H1) as Hd.
  change (fexp prec emax (Z.pos (digits2_pos p) + 0))
    with (Z.max (Zpos (digits2_pos p) + 0 - 53) (-1074)).
  destruct (Z.max (Z.pos (digits2_pos p) + 0 - 53) (-1074) - 0) as [|d|d] eqn:E.
  - assert (Hp : Zpos (digits2_pos p) = 53) by lia.
    exists p, 0. rewrite binary_round_aux_exact by (assumption || lia).
    split; [reflexivity|]. split; [lia|]. split; [simpl; lia|exact Hp].
  - lia.
  - assert (Hp : Zpos (digits2_pos (Pos.iter xO p d)) = 53)
      by (rewrite digits2_pos_iter_xO; lia).
    exists (Pos.iter xO p d), (Z.max (Zpos (digits2_pos p) + 0 - 53) (-1074)).
    rewrite binary_round_aux_exact by (assumption || lia).
    split; [reflexivity|]. split; [lia|]. split; [|exact Hp].
    rewrite Zpos_iter_xO. f_equal. f_equal. lia.
Qed.

Lemma float_is_int_count (n : Z) :
  0 < n < 2 ^ 53 -> float_is_int (SF2Prim (int_to_SF n)) n.
Proof.
  intro H. destruct (int_to_SF_exact n H) as (m & e & Hsf & He & Hm & Hd).
  exists m, e. split; [|split; [lia|exact Hm]].
  rewrite Hsf. apply Prim2SF_SF2Prim. unfold valid_binary, bounded, canonical_mantissa.
  rewrite Hd. change (fexp prec emax (53 + e)) with (Z.max (53 + e - 53) (-1074)).
  apply andb_true_iff. split; [apply Z.eqb_eq; lia|apply Z.leb_le].
  change (emax - prec) with 971. lia.
Qed.

End RoundFacts.

(** C10.  For every node of the tree after any stream of records, serialised at
    its level.  [center] is present exactly when [has_center > 0]; it is then a
    pair whose components are the roundings to six decimals of the quotients
    [sum_lng / n] and [sum_lat / n] in floating point, where [n] is
    [has_center], the number of records naming the node that carry both
    coordinates, converted to a float (exactly, below 2^53), and the two sums
    are the running sums of their longitudes and latitudes.  [bbox] is present
    exactly when some record that names the node carried both coordinates, and
    holds the roundings to six decimals of the four bounds.  Rounding to six
    decimals takes the integer nearest to the exact value times 10^6, ties to
    the even one, and the float nearest to that integer over 10^6; it
    determines its result. *)
Theorem serialized_center_and_bbox (rs : list Rec) (p : Path) (node : Node) :
  node_at (aggregate_all rs) p = Some node ->
  let doc := serialize node (path_level p) in
  let pts := coords (routed p rs) in
  (obj_get doc (str "center") <> None <-> 0 < has_center node)
  /\ (0 < has_center node ->
      exists cnt c1 c2,
        obj_get doc (str "center") = Some (JList [ JFloat c1; JFloat c2 ])
        /\ has_center node = Z.of_nat (List.length pts)
        /\ sum_lng node = fsum (map fst pts) /\ sum_lat node = fsum (map snd pts)
        /\ cnt = SF2Prim (int_to_SF (has_center node))
        /\ (has_center node < 2 ^ 53 -> float_is_int cnt (has_center node))
        /\ rounded6 (sum_lng node / cnt) c1
        /\ rounded6 (sum_lat node / cnt) c2)
  /\ (obj_get doc (str "bbox") <> None
      <-> exists r, In r (routed p rs) /\ has_coords r = true)
  /\ (obj_get doc (str "bbox") <> None ->
      exists b r0 r1 r2 r3,
        bbox node = Some b
        /\ obj_get doc (str "bbox")
           = Some (JList [ JFloat r0; JFloat r1; JFloat r2; JFloat r3 ])
        /\ rounded6 (min_lng b) r0 /\ rounded6 (min_lat b) r1
        /\ rounded6 (max_lng b) r2 /\ rounded6 (max_lat b) r3)
  /\ (forall x y y', rounded6 x y -> rounded6 x y' -> y = y').
Proof.
  intros H doc pts. unfold doc, pts. rewrite get_center, get_bbox.
  pose proof (bbox_iff_coords _ _ _ H) as Hcoords.
  pose proof (node_at_coords _ _ _ H) as Hh.
  assert (Hsums : sum_lng node = fsum (map fst (coords (routed p rs)))
                  /\ sum_lat node = fsum (map snd (coords (routed p rs)))).
  { apply node_at_stats in H as [_ Hs].
    apply stats_fields in Hs as (_ & _ & _ & _ & Hx & Hy & _).
    destruct (sums_fold_updates (routed p rs) (Node_init (path_name p) (path_level p)))
      as [Sx Sy].
    split; [now rewrite Hx, Sx|now rewrite Hy, Sy]. }
  split; [|split; [|split; [|split]]].
  - destruct (Z.eqb_spec (has_center node) 0); split; try congruence; lia.
  - intro Hpos. destruct (Z.eqb_spec (has_center node) 0); [lia|].
    exists (SF2Prim (int_to_SF (has_center node))),
      (round6 (div_int (sum_lng node) (has_center node))),
      (round6 (div_int (sum_lat node) (has_center node))).
    split; [reflexivity|]. split; [exact Hh|]. split; [apply Hsums|]. split; [apply Hsums|].
    split; [reflexivity|]. split; [intro Hlt; apply float_is_int_count; lia|].
    split; [apply (round6_rounded6 (div_int _ _))|apply (round6_rounded6 (div_int _ _))].
  - split.
    + intro Hbb. apply Hcoords. now destruct (bbox node).
    + intro Hex. apply Hcoords in Hex. now destruct (bbox node).
  - intro Hbb. destruct (bbox node) as [b|]; [|congruence].
    exists b, (round6 (min_lng b)), (round6 (min_lat b)), (round6 (max_lng b)),
      (round6 (max_lat b)).
    split; [reflexivity|]. split; [reflexivity|].
    split; [|split; [|split]]; apply round6_rounded6.
  - apply rounded6_unique.
Qed.

(** The country of the two points (10.0000001, 1.5) and (20.0000003, 2.5): the
    mean longitude 15.0000002 rounds to 15.0. *)
Lemma serialized_center_and_bbox_witness :
  exists node,
    node_at (aggregate_all unsorted_records) (PCountry (str "Peru")) = Some node
    /\ has_center node = 2
    /\ obj_get (serialize node Country) (str "center")
       = Some (JList [ JFloat 15%float; JFloat 2%float ])
    /\ rounded6 (fsum [ 10.0000001%float; 20.0000003%float ] / 2)%float 15%float
    /\ obj_get (serialize node Country) (str "bbox")
       = Some (JList [ JFloat 10%float; JFloat 1.5%float; JFloat 20%float; JFloat 2.5%float ]).
Proof.
  eexists. split; [reflexivity|].
  destruct (serialized_center_and_bbox unsorted_records (PCountry (str "Peru")) _ eq_refl)
    as (_ & Hcenter & _ & Hbbox & _).
  destruct (Hcenter eq_refl) as (cnt & c1 & c2 & Hget & Hn & Hsx & _ & Hcnt & _ & R1 & _).
  assert (E : Some (JList [ JFloat c1; JFloat c2 ])
              = Some (JList [ JFloat 15%float; JFloat 2%float ]))
    by (rewrite <- Hget; reflexivity).
  injection E as -> ->. subst cnt.
  split; [reflexivity|]. split; [exact Hget|]. split; [exact R1|reflexivity].
Defined.
